(** * ckan.model.activity: the activity log and its feed queries

    A shallow embedding of [ckan/model/activity.py].  The module builds
    SQLAlchemy [Query] objects over the [activity] table and hands them
    to the database with [q.all()].  The embedding keeps the two sides
    apart:

    - the query builders of the module are translated one by one into
      functions that return a [Query] value (the expression the Python
      code builds);
    - the store that executes a query (SQLAlchemy and the database it is
      bound to) is given a relational semantics, [Query_all]. *)

From stdpp Require Import base decidable option list sorting strings gmap.
From Stdlib Require Import ZArith Lia.

Local Open Scope Z_scope.
Set Warnings "-register-all".

(** ** The rows of the two tables *)

(** The leaves of a JSON document held in a [JsonDictType] column. *)
Inductive json : Type :=
| JNull
| JBool (b : bool)
| JNumber (n : Z)
| JString (s : string).

#[global] Instance json_eq_dec : EqDecision json.
Proof. solve_decision. Defined.

(** A Python dict with string keys. *)
Abbreviation dict := (gmap string json).

(** [class Activity].  [timestamp] is a [datetime]; it is kept as the
    number of microseconds since the epoch.  [data] is an attribute that
    Python lets hold [None], hence the [option]. *)
Record Activity : Type := mkActivity {
  id : string;
  timestamp : Z;
  user_id : string;
  object_id : string;
  revision_id : string;
  activity_type : string;
  data : option dict
}.

#[global] Instance Activity_eq_dec : EqDecision Activity.
Proof. solve_decision. Defined.

(** [class ActivityDetail].  [__init__] sets no [id]: the column default
    fills it when the row is inserted. *)
Record ActivityDetail : Type := mkActivityDetail {
  detail_activity_id : string;
  detail_object_id : string;
  detail_object_type : string;
  detail_activity_type : string;
  detail_data : option dict
}.

(** [Activity.__init__].  The two effects of the constructor, the call of
    [_types.make_uuid()] and the reading of the clock, are made explicit
    arguments. *)
Definition Activity__init__ (make_uuid : string) (now : Z)
    (user_id object_id revision_id activity_type : string)
    (data : option dict) : Activity :=
  {| id := make_uuid;
     timestamp := now;
     user_id := user_id;
     object_id := object_id;
     revision_id := revision_id;
     activity_type := activity_type;
     data := match data with
             | None => Some ∅
             | Some d => Some d
             end |}.

(** [ActivityDetail.__init__]. *)
Definition ActivityDetail__init__
    (activity_id object_id object_type activity_type : string)
    (data : option dict) : ActivityDetail :=
  {| detail_activity_id := activity_id;
     detail_object_id := object_id;
     detail_object_type := object_type;
     detail_activity_type := activity_type;
     detail_data := match data with
                    | None => Some ∅
                    | Some d => Some d
                    end |}.

(** ** The store behind [meta.Session] *)

(** The database a session is bound to.  The two dialects differ in what
    they do with a negative row count: PostgreSQL rejects the statement
    ("LIMIT must not be negative", "OFFSET must not be negative"), SQLite
    reads a negative LIMIT as no limit and a negative OFFSET as zero. *)
Inductive Dialect : Type := PostgreSQL | SQLite.

(** The follower tables [user_following_user], [user_following_dataset]
    and [user_following_group] share their two columns. *)
Record Following : Type := mkFollowing {
  follower_id : string;
  followee_id : string  (* the column [object_id] of the follower tables *)
}.

#[global] Instance Following_eq_dec : EqDecision Following.
Proof. solve_decision. Defined.

Record Package : Type := mkPackage { package_id : string }.

(** A group, with the datasets [group.packages()] returns. *)
Record Group : Type := mkGroup {
  group_id : string;
  packages : list Package
}.

Record Session : Type := mkSession {
  bind : Dialect;
  activity_table : list Activity;          (* in the order a scan yields *)
  user_following_user_table : list Following;
  user_following_dataset_table : list Following;
  user_following_group_table : list Following;
  group_table : gmap string Group
}.

(** Modelled from the spec: [model.Group.get], which lives in
    [ckan/model/group.py]; the specification gives it as the group
    membership resolver ([groupExists], [datasetsOf]): the group with
    that id, or [None]. *)
Definition Group_get (s : Session) (group_id : string) : option Group :=
  group_table s !! group_id.

(** Modelled from the spec: [model.UserFollowingGroup.followee_list],
    which lives in [ckan/model/follower.py]; the specification gives it
    as the follow-graph resolver ([followedGroups]): the rows of the
    follower table whose follower is the given user. *)
Definition UserFollowingGroup_followee_list (s : Session) (user_id : string)
    : list Following :=
  filter (λ f, follower_id f = user_id) (user_following_group_table s).

(** ** Query expressions *)

Inductive FollowTable : Type := UserFollowingUser | UserFollowingDataset.

#[global] Instance FollowTable_eq_dec : EqDecision FollowTable.
Proof. solve_decision. Defined.

Inductive Column : Type :=
| Activity_user_id
| Activity_object_id
| Activity_activity_type
| Following_follower_id (t : FollowTable)
| Following_object_id (t : FollowTable).

(** The criteria the module passes to [filter] and [join]. *)
Inductive Criterion : Type :=
| Eq (c : Column) (v : string)            (* [c == v] *)
| EqColumn (c1 c2 : Column)               (* [c1 == c2] *)
| In_ (c : Column) (vs : list string)     (* [c.in_(vs)] *)
| Endswith (c : Column) (suffix : string) (* [c.endswith(suffix)] *)
| Or_ (c1 c2 : Criterion)                 (* [or_(c1, c2)] *)
| Text_0_eq_1.                            (* the literal text ["0=1"] *)

(** What a query selects, before ordering and windowing. *)
Inductive Select : Type :=
| From_Activity
| Join (q : Select) (t : FollowTable) (on : Criterion)
| Where (q : Select) (c : Criterion)
| Union (q : Select) (qs : list Select)
| Union_all (q : Select) (qs : list Select).

Inductive OrderBy : Type := desc_Activity_timestamp.

(** A SQLAlchemy [Query] object: the statement and the three generative
    attributes the module sets. *)
Record Query : Type := mkQuery {
  statement : Select;
  _order_by : option OrderBy;
  _offset : option Z;
  _limit : option Z
}.

(** [meta.Session.query(Activity)] *)
Definition Session_query_Activity : Query :=
  {| statement := From_Activity; _order_by := None;
     _offset := None; _limit := None |}.

(** [q.filter(c)] *)
Definition Query_filter (q : Query) (c : Criterion) : Query :=
  {| statement := Where (statement q) c; _order_by := _order_by q;
     _offset := _offset q; _limit := _limit q |}.

(** [q.join(t, on)] *)
Definition Query_join (q : Query) (t : FollowTable) (on : Criterion) : Query :=
  {| statement := Join (statement q) t on; _order_by := _order_by q;
     _offset := _offset q; _limit := _limit q |}.

(** [q.union(q1, ..., qn)]: a fresh query over the UNION of the
    statements.  The module only ever combines queries that carry no
    ordering or window. *)
Definition Query_union (q : Query) (qs : list Query) : Query :=
  {| statement := Union (statement q) (statement <$> qs);
     _order_by := None; _offset := None; _limit := None |}.

(** [q.union_all(q1, ..., qn)] *)
Definition Query_union_all (q : Query) (qs : list Query) : Query :=
  {| statement := Union_all (statement q) (statement <$> qs);
     _order_by := None; _offset := None; _limit := None |}.

(** [q.order_by(o)] *)
Definition Query_order_by (q : Query) (o : OrderBy) : Query :=
  {| statement := statement q; _order_by := Some o;
     _offset := _offset q; _limit := _limit q |}.

(** [q.offset(n)] *)
Definition Query_offset (q : Query) (n : Z) : Query :=
  {| statement := statement q; _order_by := _order_by q;
     _offset := Some n; _limit := _limit q |}.

(** [q.limit(n)] *)
Definition Query_limit (q : Query) (n : Z) : Query :=
  {| statement := statement q; _order_by := _order_by q;
     _offset := _offset q; _limit := Some n |}.

(** ** What the store does with a query *)

Inductive Exception : Type :=
| InvalidArgument                 (* an error kind of the specification *)
| StorageUnavailable              (* an error kind of the specification *)
| DataError (message : string).   (* [sqlalchemy.exc.DataError] *)

Inductive result (A : Type) : Type :=
| Ok (a : A)
| Raise (e : Exception).
Arguments Ok {A} a.
Arguments Raise {A} e.

Definition bind_result {A B} (r : result A) (k : A → result B) : result B :=
  match r with
  | Ok a => k a
  | Raise e => Raise e
  end.

Notation "x ←r r ; k" := (bind_result r (λ x, k))
  (at level 20, r at level 100, k at level 200, only parsing).

(** A row while a statement is evaluated: the selected [Activity] and the
    rows of the follower tables joined to it. *)
Record Row : Type := mkRow {
  row_activity : Activity;
  row_joined : list (FollowTable * Following)
}.

Definition entity (a : Activity) : Row :=
  {| row_activity := a; row_joined := [] |}.

Fixpoint joined (t : FollowTable) (js : list (FollowTable * Following))
    : option Following :=
  match js with
  | [] => None
  | (t', f) :: js' => if decide (t' = t) then Some f else joined t js'
  end.

(** The value of a column in a row; [None] is SQL's NULL. *)
Definition column_value (c : Column) (r : Row) : option string :=
  match c with
  | Activity_user_id => Some (user_id (row_activity r))
  | Activity_object_id => Some (object_id (row_activity r))
  | Activity_activity_type => Some (activity_type (row_activity r))
  | Following_follower_id t => follower_id <$> joined t (row_joined r)
  | Following_object_id t => followee_id <$> joined t (row_joined r)
  end.

(** [s] ends with [suffix], character for character. *)
Definition endswith (s suffix : string) : bool :=
  let n := String.length s in
  let m := String.length suffix in
  if decide (m ≤ n)%nat
  then bool_decide (String.substring (n - m) m s = suffix)
  else false.

(** The lower-case form of an ASCII letter; other characters stay. *)
Definition ascii_lower (c : Ascii.ascii) : Ascii.ascii :=
  let n := Ascii.nat_of_ascii c in
  if decide (65 ≤ n ≤ 90)%nat then Ascii.ascii_of_nat (n + 32) else c.

Fixpoint lower (s : string) : string :=
  match s with
  | EmptyString => EmptyString
  | String c s' => String (ascii_lower c) (lower s')
  end.

(** [column.endswith(suffix)] is sent to the store as
    [column LIKE '%' || suffix]; the one suffix the module passes,
    ["package"], has no wildcard in it.  LIKE compares character for
    character on PostgreSQL and without regard to the case of ASCII
    letters on SQLite. *)
Definition like_suffix (d : Dialect) (s suffix : string) : bool :=
  match d with
  | PostgreSQL => endswith s suffix
  | SQLite => endswith (lower s) (lower suffix)
  end.

(** A criterion holds of a row; a comparison with NULL does not hold. *)
Fixpoint holds (d : Dialect) (c : Criterion) (r : Row) : bool :=
  match c with
  | Eq c v =>
      match column_value c r with
      | Some x => bool_decide (x = v)
      | None => false
      end
  | EqColumn c1 c2 =>
      match column_value c1 r, column_value c2 r with
      | Some x, Some y => bool_decide (x = y)
      | _, _ => false
      end
  | In_ c vs =>
      match column_value c r with
      | Some x => bool_decide (x ∈ vs)
      | None => false
      end
  | Endswith c suffix =>
      match column_value c r with
      | Some x => like_suffix d x suffix
      | None => false
      end
  | Or_ c1 c2 => holds d c1 r || holds d c2 r
  | Text_0_eq_1 => false
  end.

Definition follow_table (s : Session) (t : FollowTable) : list Following :=
  match t with
  | UserFollowingUser => user_following_user_table s
  | UserFollowingDataset => user_following_dataset_table s
  end.

(** The rows a statement selects.  A join pairs every row with every
    matching row of the follower table; UNION keeps one copy of each
    [Activity], UNION ALL keeps them all. *)
Fixpoint rows (s : Session) (q : Select) : list Row :=
  match q with
  | From_Activity => entity <$> activity_table s
  | Join q t on =>
      r ← rows s q;
      f ← follow_table s t;
      let r' := {| row_activity := row_activity r;
                   row_joined := (t, f) :: row_joined r |} in
      if holds (bind s) on r' then [r'] else []
  | Where q c => filter (λ r, holds (bind s) c r) (rows s q)
  | Union q qs =>
      entity <$> remove_dups
        (row_activity <$> (rows s q ++ flat_map (rows s) qs))
  | Union_all q qs =>
      entity <$> (row_activity <$> (rows s q ++ flat_map (rows s) qs))
  end.

(** ORDER BY timestamp DESC: the sort key is the timestamp alone; rows
    with equal timestamps stay in the order the statement yields them. *)
Fixpoint insert_desc (a : Activity) (l : list Activity) : list Activity :=
  match l with
  | [] => [a]
  | b :: l' =>
      if decide (timestamp b ≤ timestamp a)
      then a :: b :: l'
      else b :: insert_desc a l'
  end.

Definition sort_desc_timestamp (l : list Activity) : list Activity :=
  foldr insert_desc [] l.

Definition apply_order_by (o : option OrderBy) (l : list Activity)
    : list Activity :=
  match o with
  | Some desc_Activity_timestamp => sort_desc_timestamp l
  | None => l
  end.

(** The largest row count a store takes: LIMIT and OFFSET are 64-bit
    signed integers, and a larger value is rejected. *)
Definition max_count : Z := 2 ^ 63 - 1.

(** OFFSET n *)
Definition apply_offset (d : Dialect) (n : Z) (l : list Activity)
    : result (list Activity) :=
  if decide (0 ≤ n) then
    if decide (n ≤ max_count) then Ok (drop (Z.to_nat n) l)
    else Raise (DataError "OFFSET out of range")
  else match d with
       | PostgreSQL => Raise (DataError "OFFSET must not be negative")
       | SQLite => Ok l
       end.

(** LIMIT n *)
Definition apply_limit (d : Dialect) (n : Z) (l : list Activity)
    : result (list Activity) :=
  if decide (0 ≤ n) then
    if decide (n ≤ max_count) then Ok (take (Z.to_nat n) l)
    else Raise (DataError "LIMIT out of range")
  else match d with
       | PostgreSQL => Raise (DataError "LIMIT must not be negative")
       | SQLite => Ok l
       end.

(** [q.all()]: select, order, skip, cap, on the store that keeps rows of
    equal timestamp in scan order; [Query_all_in] below is the store
    with an order of its own.  (For a query of one mapped class
    SQLAlchemy also drops an object it has already returned; the rows of
    every feed are distinct once the table has its primary key, and the
    step is left out.) *)
Definition Query_all (s : Session) (q : Query) : result (list Activity) :=
  let l := apply_order_by (_order_by q) (row_activity <$> rows s (statement q)) in
  l ←r match _offset q with
       | Some n => apply_offset (bind s) n l
       | None => Ok l
       end;
  match _limit q with
  | Some n => apply_limit (bind s) n l
  | None => Ok l
  end.

(** ** The functions of [ckan/model/activity.py] *)

(** [_activities_at_offset(q, limit, offset)].  [limit] and [offset] are
    [None] or an integer; [if offset:] holds for an integer other than
    zero, negative ones included. *)
Definition _activities_at_offset (s : Session) (q : Query)
    (limit offset : option Z) : result (list Activity) :=
  let q := Query_order_by q desc_Activity_timestamp in
  let q := match offset with
           | Some n => if decide (n = 0) then q else Query_offset q n
           | None => q
           end in
  let q := match limit with
           | Some n => if decide (n = 0) then q else Query_limit q n
           | None => q
           end in
  Query_all s q.

Definition _activities_from_user_query (user_id : string) : Query :=
  let q := Session_query_Activity in
  let q := Query_filter q (Eq Activity_user_id user_id) in
  q.

Definition _activities_about_user_query (user_id : string) : Query :=
  let q := Session_query_Activity in
  let q := Query_filter q (Eq Activity_object_id user_id) in
  q.

Definition _user_activity_query (user_id : string) : Query :=
  let q := _activities_from_user_query user_id in
  let q := Query_union q [_activities_about_user_query user_id] in
  q.

Definition user_activity_list (s : Session) (user_id : string)
    (limit offset : option Z) : result (list Activity) :=
  let q := _user_activity_query user_id in
  _activities_at_offset s q limit offset.

Definition _package_activity_query (package_id : string) : Query :=
  let q := Session_query_Activity in
  let q := Query_filter q (Eq Activity_object_id package_id) in
  q.

Definition package_activity_list (s : Session) (package_id : string)
    (limit offset : option Z) : result (list Activity) :=
  let q := _package_activity_query package_id in
  _activities_at_offset s q limit offset.

Definition _group_activity_query (s : Session) (group_id : string) : Query :=
  match Group_get s group_id with
  | None =>
      (* Return a query with no results. *)
      Query_filter Session_query_Activity Text_0_eq_1
  | Some group =>
      let dataset_ids := package_id <$> packages group in
      let q := Session_query_Activity in
      match dataset_ids with
      | _ :: _ =>
          Query_filter q (Or_ (Eq Activity_object_id group_id)
                              (In_ Activity_object_id dataset_ids))
      | [] => Query_filter q (Eq Activity_object_id group_id)
      end
  end.

Definition group_activity_list (s : Session) (group_id : string)
    (limit offset : option Z) : result (list Activity) :=
  let q := _group_activity_query s group_id in
  _activities_at_offset s q limit offset.

Definition _activites_from_users_followed_by_user_query (user_id : string)
    : Query :=
  let q := Session_query_Activity in
  let q := Query_join q UserFollowingUser
             (EqColumn (Following_object_id UserFollowingUser)
                       Activity_user_id) in
  let q := Query_filter q
             (Eq (Following_follower_id UserFollowingUser) user_id) in
  q.

Definition _activities_from_datasets_followed_by_user_query
    (user_id : string) : Query :=
  let q := Session_query_Activity in
  let q := Query_join q UserFollowingDataset
             (EqColumn (Following_object_id UserFollowingDataset)
                       Activity_object_id) in
  let q := Query_filter q
             (Eq (Following_follower_id UserFollowingDataset) user_id) in
  q.

Definition _activities_from_groups_followed_by_user_query (s : Session)
    (user_id : string) : Query :=
  (* Get a list of the groups that the user is following. *)
  let follower_objects := UserFollowingGroup_followee_list s user_id in
  match follower_objects with
  | [] =>
      (* Return a query with no results. *)
      Query_filter Session_query_Activity Text_0_eq_1
  | first :: rest =>
      let q := _group_activity_query s (followee_id first) in
      let q := Query_union_all q
                 ((λ follower, _group_activity_query s (followee_id follower))
                    <$> rest) in
      q
  end.

Definition _activities_from_everything_followed_by_user_query (s : Session)
    (user_id : string) : Query :=
  let q := _activites_from_users_followed_by_user_query user_id in
  let q := Query_union q
             [_activities_from_datasets_followed_by_user_query user_id] in
  let q := Query_union q
             [_activities_from_groups_followed_by_user_query s user_id] in
  q.

Definition activities_from_everything_followed_by_user (s : Session)
    (user_id : string) (limit offset : option Z) : result (list Activity) :=
  let q := _activities_from_everything_followed_by_user_query s user_id in
  _activities_at_offset s q limit offset.

Definition _dashboard_activity_query (s : Session) (user_id : string)
    : Query :=
  let q := _activities_from_user_query user_id in
  let q := Query_union q
             [_activities_about_user_query user_id;
              _activites_from_users_followed_by_user_query user_id;
              _activities_from_datasets_followed_by_user_query user_id;
              _activities_from_groups_followed_by_user_query s user_id] in
  q.

Definition dashboard_activity_list (s : Session) (user_id : string)
    (limit offset : option Z) : result (list Activity) :=
  let q := _dashboard_activity_query s user_id in
  _activities_at_offset s q limit offset.

Definition _changed_packages_activity_query : Query :=
  let q := Session_query_Activity in
  let q := Query_filter q (Endswith Activity_activity_type "package") in
  q.

Definition recently_changed_packages_activity_list (s : Session)
    (limit offset : option Z) : result (list Activity) :=
  let q := _changed_packages_activity_query in
  _activities_at_offset s q limit offset.

(** The six feed operations, as one family. *)
Inductive Feed : Type :=
| user_feed (user_id : string)
| package_feed (package_id : string)
| group_feed (group_id : string)
| followed_feed (user_id : string)
| dashboard_feed (user_id : string)
| changed_packages_feed.

Definition feed_query (s : Session) (f : Feed) : Query :=
  match f with
  | user_feed u => _user_activity_query u
  | package_feed p => _package_activity_query p
  | group_feed g => _group_activity_query s g
  | followed_feed u => _activities_from_everything_followed_by_user_query s u
  | dashboard_feed u => _dashboard_activity_query s u
  | changed_packages_feed => _changed_packages_activity_query
  end.

Definition feed (s : Session) (f : Feed) (limit offset : option Z)
    : result (list Activity) :=
  match f with
  | user_feed u => user_activity_list s u limit offset
  | package_feed p => package_activity_list s p limit offset
  | group_feed g => group_activity_list s g limit offset
  | followed_feed u =>
      activities_from_everything_followed_by_user s u limit offset
  | dashboard_feed u => dashboard_activity_list s u limit offset
  | changed_packages_feed =>
      recently_changed_packages_activity_list s limit offset
  end.

(** ** A store with its own order among equal timestamps *)

(** ORDER BY timestamp DESC leaves the order of rows with equal
    timestamps to the store, and a store may settle it differently for
    each statement it is sent.  A [TieOrder] gives, for the query that
    is executed, the rank by which the store orders rows of equal
    timestamp; rows equal in both keep the order of the scan. *)
Definition TieOrder : Type := Query → Activity → Z.

(** The store of [Query_all]: equal timestamps in the order of the
    scan. *)
Definition scan_order : TieOrder := λ _ _, 0.

Fixpoint insert_ranked (rank : Activity → Z) (a : Activity)
    (l : list Activity) : list Activity :=
  match l with
  | [] => [a]
  | b :: l' =>
      if decide (timestamp b < timestamp a
                 ∨ (timestamp b = timestamp a ∧ rank a ≤ rank b))
      then a :: b :: l'
      else b :: insert_ranked rank a l'
  end.

Definition sort_ranked (rank : Activity → Z) (l : list Activity)
    : list Activity :=
  foldr (insert_ranked rank) [] l.

(** [q.all()] on a store with the tie order [tie]. *)
Definition Query_all_in (tie : TieOrder) (s : Session) (q : Query)
    : result (list Activity) :=
  let l := row_activity <$> rows s (statement q) in
  let l := match _order_by q with
           | Some desc_Activity_timestamp => sort_ranked (tie q) l
           | None => l
           end in
  l ←r match _offset q with
       | Some n => apply_offset (bind s) n l
       | None => Ok l
       end;
  match _limit q with
  | Some n => apply_limit (bind s) n l
  | None => Ok l
  end.

(** [_activities_at_offset(q, limit, offset)] on that store. *)
Definition _activities_at_offset_in (tie : TieOrder) (s : Session)
    (q : Query) (limit offset : option Z) : result (list Activity) :=
  let q := Query_order_by q desc_Activity_timestamp in
  let q := match offset with
           | Some n => if decide (n = 0) then q else Query_offset q n
           | None => q
           end in
  let q := match limit with
           | Some n => if decide (n = 0) then q else Query_limit q n
           | None => q
           end in
  Query_all_in tie s q.

(** The six feed operations on that store. *)
Definition feed_in (tie : TieOrder) (s : Session) (f : Feed)
    (limit offset : option Z) : result (list Activity) :=
  _activities_at_offset_in tie s (feed_query s f) limit offset.

(** ** A small log to run the functions on *)

Module Scenario.

Definition act (i : string) (t : Z) (u o ty : string) : Activity :=
  {| id := i; timestamp := t; user_id := u; object_id := o;
     revision_id := "r"; activity_type := ty; data := Some ∅ |}.

Definition A1 : Activity := act "A1" 10 "U1" "U1" "new_user".
Definition A2 : Activity := act "A2" 20 "U1" "P1" "new_package".

Definition log : Session :=
  {| bind := PostgreSQL;
     activity_table := [A1; A2];
     user_following_user_table := [];
     user_following_dataset_table := [];
     user_following_group_table := [];
     group_table := ∅ |}.

End Scenario.

(** The same log behind a SQLite session. *)
Definition on_sqlite (s : Session) : Session :=
  {| bind := SQLite;
     activity_table := activity_table s;
     user_following_user_table := user_following_user_table s;
     user_following_dataset_table := user_following_dataset_table s;
     user_following_group_table := user_following_group_table s;
     group_table := group_table s |}.

(** Two activities about one dataset, written at the same instant. *)
Module Ties.

Definition Aa : Activity := Scenario.act "a" 7 "U1" "P1" "new_package".
Definition Ab : Activity := Scenario.act "b" 7 "U2" "P1" "changed_package".

Definition log : Session :=
  {| bind := PostgreSQL;
     activity_table := [Aa; Ab];
     user_following_user_table := [];
     user_following_dataset_table := [];
     user_following_group_table := [];
     group_table := ∅ |}.

(** The same two rows, stored the other way round. *)
Definition log_swapped : Session :=
  {| bind := PostgreSQL;
     activity_table := [Ab; Aa];
     user_following_user_table := [];
     user_following_dataset_table := [];
     user_following_group_table := [];
     group_table := ∅ |}.

(** A store that orders equal timestamps by descending id when it is
    asked for two rows, and in scan order otherwise. *)
Definition by_limit : TieOrder :=
  λ q a, if decide (_limit q = Some 2)
         then (if decide (id a = "a") then 1 else 0)
         else 0.

End Ties.

(** An activity whose type is written in capitals, on SQLite. *)
Module Capitals.

Definition A3 : Activity := Scenario.act "A3" 30 "U1" "P2" "NEW_PACKAGE".

Definition log : Session :=
  {| bind := SQLite;
     activity_table := [A3];
     user_following_user_table := [];
     user_following_dataset_table := [];
     user_following_group_table := [];
     group_table := ∅ |}.

End Capitals.

(** A user who follows two groups that share a dataset, the dataset
    itself and its author. *)
Module Overlap.

Definition B1 : Activity := Scenario.act "B1" 5 "U2" "P1" "changed_package".
Definition B2 : Activity := Scenario.act "B2" 9 "U3" "G1" "changed_group".

Definition log : Session :=
  {| bind := PostgreSQL;
     activity_table := [B1; B2];
     user_following_user_table := [mkFollowing "U1" "U2"];
     user_following_dataset_table := [mkFollowing "U1" "P1"];
     user_following_group_table :=
       [mkFollowing "U1" "G1"; mkFollowing "U1" "G2"];
     group_table :=
       {[ "G1" := mkGroup "G1" [mkPackage "P1"];
          "G2" := mkGroup "G2" [mkPackage "P1"] ]} |}.

End Overlap.

(** ** Vocabulary of the properties *)

(** The whole feed: every selected activity, newest first, no window. *)
Definition ordered_rows (s : Session) (q : Query) : list Activity :=
  sort_desc_timestamp (row_activity <$> rows s (statement q)).

Definition timestamp_ge (a b : Activity) : Prop := timestamp b ≤ timestamp a.

(** Adjacent rows run from newer to older. *)
Definition timestamps_descending (l : list Activity) : Prop :=
  ∀ (i : nat) a b, l !! i = Some a → l !! S i = Some b →
    timestamp a >= timestamp b.

(** Adjacent rows written at the same instant run from larger to smaller
    id. *)
Definition ties_by_id_descending (l : list Activity) : Prop :=
  ∀ (i : nat) a b, l !! i = Some a → l !! S i = Some b →
    timestamp a = timestamp b → String.leb (id b) (id a) = true.

(** How often an activity occurs in a page. *)
Definition occurrences (a : Activity) (l : list Activity) : nat :=
  count_occ Activity_eq_dec l a.

(** Python truthiness of a [limit] or [offset] argument. *)
Definition falsy (v : option Z) : Prop := v = None ∨ v = Some 0.

Definition non_negative (v : option Z) : Prop :=
  match v with
  | Some n => 0 ≤ n
  | None => True
  end.

(** A limit or offset the store accepts as a row count, or none. *)
Definition row_count (v : option Z) : Prop :=
  match v with
  | Some n => 0 ≤ n ≤ max_count
  | None => True
  end.

Definition negative (v : option Z) : Prop :=
  match v with
  | Some n => n < 0
  | None => False
  end.

(** The rows left after skipping [offset] rows, then after keeping
    [limit] rows, for arguments that are absent or not negative. *)
Definition skip (offset : option Z) (l : list Activity) : list Activity :=
  match offset with
  | Some n => drop (Z.to_nat n) l
  | None => l
  end.

Definition cap (limit : option Z) (l : list Activity) : list Activity :=
  match limit with
  | Some n => if decide (n = 0) then l else take (Z.to_nat n) l
  | None => l
  end.



(** The whole feed of an operation. *)
Definition feed_rows (s : Session) (f : Feed) : list Activity :=
  ordered_rows s (feed_query s f).

(** The builders of the module hand over queries that carry no window
    yet. *)
Definition unwindowed (q : Query) : Prop :=
  _offset q = None ∧ _limit q = None.

(** The activities a query selects, in the order the store yields
    them, before ordering and windowing. *)
Definition selected (s : Session) (q : Query) : list Activity :=
  row_activity <$> rows s (statement q).

(** A follower table records that [user_id] follows [x]. *)
Definition follows (table : list Following) (user_id x : string) : Prop :=
  mkFollowing user_id x ∈ table.

(** The activity is about the group [g] of the store or about one of its
    datasets. *)
Definition about_group (s : Session) (g : string) (a : Activity) : Prop :=
  ∃ group, Group_get s g = Some group ∧
    (object_id a = g ∨ object_id a ∈ package_id <$> packages group).

(** The limit or offset that reaches the query: [if limit:] lets every
    integer but zero through. *)
Definition truthy_value (v : option Z) : option Z :=
  match v with
  | Some n => if decide (n = 0) then None else Some n
  | None => None
  end.

(** The query [_activities_at_offset] executes. *)
Definition windowed (q : Query) (limit offset : option Z) : Query :=
  {| statement := statement q;
     _order_by := Some desc_Activity_timestamp;
     _offset := truthy_value offset;
     _limit := truthy_value limit |}.

(** The rows of a query in the order a store with the tie order [tie]
    gives them when it executes [windowed q limit offset]. *)
Definition ordered_rows_in (tie : TieOrder) (s : Session) (q : Query)
    (limit offset : option Z) : list Activity :=
  sort_ranked (tie (windowed q limit offset)) (selected s q).

(** The store orders equal timestamps without regard to the window of
    the statement. *)
Definition window_blind (tie : TieOrder) : Prop :=
  ∀ q limit offset a,
    tie (windowed q limit offset) a = tie (windowed q None None) a.

(** No two activities of the feed were written at the same instant. *)
Definition distinct_timestamps (s : Session) (f : Feed) : Prop :=
  NoDup (timestamp <$> selected s (feed_query s f)).

(** The primary key of the [activity] table. *)
Definition primary_key (s : Session) : Prop :=
  NoDup (id <$> activity_table s).

(** The user follows nothing at all. *)
Definition follows_nothing (s : Session) (user_id : string) : Prop :=
  ∀ f, f ∈ user_following_user_table s
         ++ user_following_dataset_table s
         ++ user_following_group_table s →
       follower_id f ≠ user_id.

(** ** Running the functions on the small logs *)

Example scenario_user_feed :
  user_activity_list Scenario.log "U1" (Some 10) (Some 0)
  = Ok [Scenario.A2; Scenario.A1].
Proof. vm_compute. reflexivity. Qed.

Example scenario_changed_packages :
  recently_changed_packages_activity_list Scenario.log (Some 10) (Some 0)
  = Ok [Scenario.A2].
Proof. vm_compute. reflexivity. Qed.

(** Rows with equal timestamps come back in the order they are stored
    in, whatever their ids. *)
Example ties_follow_the_store :
  package_activity_list Ties.log "P1" None None = Ok [Ties.Aa; Ties.Ab] ∧
  package_activity_list Ties.log_swapped "P1" None None
    = Ok [Ties.Ab; Ties.Aa].
Proof. split; vm_compute; reflexivity. Qed.

Example overlap_groups_query_repeats :
  Query_all Overlap.log
    (_activities_from_groups_followed_by_user_query Overlap.log "U1")
  = Ok [Overlap.B1; Overlap.B2; Overlap.B1].
Proof. vm_compute. reflexivity. Qed.

Example overlap_followed_feed :
  activities_from_everything_followed_by_user Overlap.log "U1" None None
  = Ok [Overlap.B2; Overlap.B1].
Proof. vm_compute. reflexivity. Qed.

Example overlap_group_feed :
  group_activity_list Overlap.log "G1" None None
  = Ok [Overlap.B2; Overlap.B1].
Proof. vm_compute. reflexivity. Qed.

(** ** Sorting *)

Section sorting.

#[local] Instance timestamp_ge_trans : Transitive timestamp_ge.
Proof. unfold timestamp_ge. intros a b c ??. lia. Qed.

Lemma insert_desc_Permutation a l : insert_desc a l ≡ₚ a :: l.
Proof.
  induction l as [|b l IH]; simpl; [done|].
  case_decide; [done|].
  rewrite IH. apply Permutation_swap.
Qed.

Lemma sort_desc_timestamp_Permutation l : sort_desc_timestamp l ≡ₚ l.
Proof.
  induction l as [|a l IH]; simpl; [done|].
  fold (sort_desc_timestamp l).
  by rewrite insert_desc_Permutation, IH.
Qed.

Lemma insert_desc_HdRel c a l :
  timestamp_ge c a → HdRel timestamp_ge c l →
  HdRel timestamp_ge c (insert_desc a l).
Proof.
  intros Hca Hcl. destruct l as [|b l]; simpl; [by constructor|].
  case_decide; constructor; [done|].
  by inversion Hcl.
Qed.

Lemma insert_desc_Sorted a l :
  Sorted timestamp_ge l → Sorted timestamp_ge (insert_desc a l).
Proof.
  induction 1 as [|b l Hl IH Hb]; simpl.
  - by repeat constructor.
  - case_decide as Hle.
    + constructor; [by constructor|]. by constructor.
    + constructor; [done|].
      apply insert_desc_HdRel; [|done].
      unfold timestamp_ge. lia.
Qed.

Lemma sort_desc_timestamp_Sorted l :
  StronglySorted timestamp_ge (sort_desc_timestamp l).
Proof.
  apply Sorted_StronglySorted; [apply _|].
  induction l as [|a l IH]; simpl; [constructor|].
  by apply insert_desc_Sorted.
Qed.

Lemma StronglySorted_sublist (l k : list Activity) :
  l `sublist_of` k →
  StronglySorted timestamp_ge k → StronglySorted timestamp_ge l.
Proof.
  induction 1 as [|a l k Hlk IH|a l k Hlk IH]; intros Hk.
  - constructor.
  - apply StronglySorted_inv in Hk as [Hk Ha].
    constructor; [by apply IH|].
    rewrite Forall_forall in Ha |- *.
    intros x Hx. apply Ha. by eapply elem_of_sublist.
  - apply StronglySorted_inv in Hk as [Hk _]. by apply IH.
Qed.

Lemma StronglySorted_adjacent (l : list Activity) :
  StronglySorted timestamp_ge l → timestamps_descending l.
Proof.
  induction 1 as [|c l Hl IH Hc]; intros i a b Ha Hb; [done|].
  destruct i as [|i]; simpl in *.
  - injection Ha as <-.
    assert (b ∈ l) as Hin by (eapply list_elem_of_lookup_2; exact Hb).
    rewrite Forall_forall in Hc. specialize (Hc b Hin).
    unfold timestamp_ge in Hc. lia.
  - by eapply IH.
Qed.

End sorting.

(** ** Deduplication *)



Lemma fmap_activity_entity (l : list Activity) :
  row_activity <$> (entity <$> l) = l.
Proof. rewrite <- list_fmap_compose. by rewrite list_fmap_id. Qed.

(** ** Ordering and windowing: [_activities_at_offset] *)

Lemma apply_offset_row_count d n l :
  0 ≤ n ≤ max_count → apply_offset d n l = Ok (drop (Z.to_nat n) l).
Proof. intros. unfold apply_offset. by rewrite !decide_True by lia. Qed.

Lemma apply_limit_row_count d n l :
  0 ≤ n ≤ max_count → apply_limit d n l = Ok (take (Z.to_nat n) l).
Proof. intros. unfold apply_limit. by rewrite !decide_True by lia. Qed.

Lemma apply_offset_sublist d n l k :
  apply_offset d n l = Ok k → k `sublist_of` l.
Proof.
  unfold apply_offset. repeat case_decide; [| |destruct d]; intros [= <-];
    [apply sublist_drop|done].
Qed.



Lemma apply_limit_sublist d n l k :
  apply_limit d n l = Ok k → k `sublist_of` l.
Proof.
  unfold apply_limit. repeat case_decide; [| |destruct d]; intros [= <-];
    [apply sublist_take|done].
Qed.

Section at_offset.

Variable s : Session.
Variable q : Query.
Hypothesis Hq : unwindowed q.

Lemma _activities_at_offset_unfold limit offset :
  _activities_at_offset s q limit offset =
    (l ←r match offset with
          | Some n =>
              if decide (n = 0) then Ok (ordered_rows s q)
              else apply_offset (bind s) n (ordered_rows s q)
          | None => Ok (ordered_rows s q)
          end;
     match limit with
     | Some n => if decide (n = 0) then Ok l else apply_limit (bind s) n l
     | None => Ok l
     end).
Proof.
  destruct Hq as [Ho Hl], q as [st ob off lim]; simpl in Ho, Hl; subst.
  unfold _activities_at_offset, Query_all, ordered_rows.
  destruct offset as [o|], limit as [n|]; repeat case_decide; reflexivity.
Qed.

(** With arguments that are absent or row counts the call returns, and
    returns the window [cap limit (skip offset _)] of the ordered rows. *)
Lemma _activities_at_offset_row_count limit offset :
  row_count limit → row_count offset →
  _activities_at_offset s q limit offset
  = Ok (cap limit (skip offset (ordered_rows s q))).
Proof.
  intros Hl Ho. rewrite _activities_at_offset_unfold.
  destruct offset as [o|]; simpl in *.
  - assert (Ho' : (if decide (o = 0) then Ok (ordered_rows s q)
                   else apply_offset (bind s) o (ordered_rows s q))
                  = Ok (drop (Z.to_nat o) (ordered_rows s q))).
    { case_decide as Hz; [by subst|]. by apply apply_offset_row_count. }
    rewrite Ho'. clear Ho'. simpl. destruct limit as [n|]; simpl in *; [|done].
    destruct (decide (n = 0)); [done|]. by apply apply_limit_row_count.
  - destruct limit as [n|]; simpl in *; [|done].
    destruct (decide (n = 0)); [done|]. by apply apply_limit_row_count.
Qed.

(** Whatever the arguments, a returned page is cut out of the ordered
    rows. *)
Lemma _activities_at_offset_sublist limit offset l :
  _activities_at_offset s q limit offset = Ok l →
  l `sublist_of` ordered_rows s q.
Proof.
  rewrite _activities_at_offset_unfold.
  set (L := ordered_rows s q).
  assert (Hoff : ∀ k,
    match offset with
    | Some n => if decide (n = 0) then Ok L else apply_offset (bind s) n L
    | None => Ok L
    end = Ok k → k `sublist_of` L).
  { intros k. destruct offset as [o|]; [case_decide|].
    - by intros [= <-].
    - apply apply_offset_sublist.
    - by intros [= <-]. }
  destruct (match offset with
            | Some n => if decide (n = 0) then Ok L
                        else apply_offset (bind s) n L
            | None => Ok L
            end) as [k|e]; simpl; [|done].
  specialize (Hoff k eq_refl). intros Hlim.
  assert (l `sublist_of` k) as Hlk.
  { destruct limit as [n|]; [case_decide|].
    - by injection Hlim as <-.
    - by eapply apply_limit_sublist.
    - by injection Hlim as <-. }
  by etrans.
Qed.

(** The function has no check of its own: whatever it raises comes from
    the store. *)
Lemma _activities_at_offset_no_InvalidArgument limit offset :
  _activities_at_offset s q limit offset ≠ Raise InvalidArgument.
Proof.
  rewrite _activities_at_offset_unfold.
  unfold apply_offset, apply_limit.
  destruct offset as [o|], limit as [n|], (bind s);
    repeat case_decide; simpl; unfold apply_limit;
    repeat case_decide; simpl; congruence.
Qed.

End at_offset.

Lemma feed_unfold s f limit offset :
  feed s f limit offset = _activities_at_offset s (feed_query s f) limit offset.
Proof. by destruct f. Qed.

Lemma ordered_rows_Permutation s q :
  ordered_rows s q ≡ₚ row_activity <$> rows s (statement q).
Proof. apply sort_desc_timestamp_Permutation. Qed.

Lemma _group_activity_query_unwindowed s g :
  unwindowed (_group_activity_query s g).
Proof.
  unfold _group_activity_query.
  destruct (Group_get s g) as [group|]; [|done].
  by destruct (packages group).
Qed.

Lemma feed_query_unwindowed s f : unwindowed (feed_query s f).
Proof. destruct f; try done. apply _group_activity_query_unwindowed. Qed.

Lemma feed_row_count s f limit offset :
  row_count limit → row_count offset →
  feed s f limit offset = Ok (cap limit (skip offset (feed_rows s f))).
Proof.
  intros. rewrite feed_unfold.
  by apply _activities_at_offset_row_count; [apply feed_query_unwindowed|..].
Qed.

Lemma feed_falsy s f limit offset :
  falsy limit → falsy offset → feed s f limit offset = Ok (feed_rows s f).
Proof.
  intros Hl Ho. rewrite feed_row_count.
  - by destruct Hl as [-> | ->], Ho as [-> | ->].
  - by destruct Hl as [-> | ->].
  - by destruct Ho as [-> | ->].
Qed.

Lemma feed_sublist s f limit offset l :
  feed s f limit offset = Ok l → l `sublist_of` feed_rows s f.
Proof.
  rewrite feed_unfold.
  apply _activities_at_offset_sublist, feed_query_unwindowed.
Qed.

(** ** The ordering of a feed *)

(** C1, as the code has it: for every feed operation and every log, the
    returned sequence is ordered by timestamp descending: the timestamp
    of each row is at least that of the next one.  The timestamp is the
    only sort key. *)
Theorem feed_timestamps_descending s f limit offset l :
  feed s f limit offset = Ok l → timestamps_descending l.
Proof.
  intros Hl. apply StronglySorted_adjacent.
  eapply StronglySorted_sublist; [by eapply feed_sublist|].
  apply sort_desc_timestamp_Sorted.
Qed.

Lemma feed_timestamps_descending_witness :
  feed Scenario.log (user_feed "U1") (Some 10) (Some 0)
    = Ok [Scenario.A2; Scenario.A1]
  ∧ timestamps_descending [Scenario.A2; Scenario.A1].
Proof.
  split; [reflexivity|].
  apply (feed_timestamps_descending Scenario.log (user_feed "U1")
           (Some 10) (Some 0)).
  reflexivity.
Defined.

(** C1 fails as stated: two activities about one dataset with the same
    timestamp come back in the order the store yields them, smaller id
    first. *)
Lemma feed_ties_not_by_id :
  ¬ (∀ s f limit offset l, feed s f limit offset = Ok l →
       timestamps_descending l ∧ ties_by_id_descending l).
Proof.
  intros H.
  destruct (H Ties.log (package_feed "P1") None None [Ties.Aa; Ties.Ab]
              eq_refl) as [_ Hties].
  specialize (Hties 0%nat Ties.Aa Ties.Ab eq_refl eq_refl eq_refl).
  vm_compute in Hties. discriminate.
Qed.

Lemma NoDup_fmap_inj_on {A B} (f : A → B) (l : list A) x y :
  NoDup (f <$> l) → x ∈ l → y ∈ l → f x = f y → x = y.
Proof.
  induction l as [|z l IH]; intros Hnd Hx Hy Hxy; [by apply elem_of_nil in Hx|].
  rewrite fmap_cons in Hnd. apply NoDup_cons in Hnd as [Hz Hnd].
  apply elem_of_cons in Hx as [-> | Hx]; apply elem_of_cons in Hy as [-> | Hy].
  - done.
  - destruct Hz. rewrite Hxy. by apply list_elem_of_fmap_2.
  - destruct Hz. rewrite <- Hxy. by apply list_elem_of_fmap_2.
  - by apply IH.
Qed.

(** ** The tie order of the store *)

Lemma insert_ranked_Permutation rank a l : insert_ranked rank a l ≡ₚ a :: l.
Proof.
  induction l as [|b l IH]; simpl; [done|].
  case_decide; [done|].
  rewrite IH. apply Permutation_swap.
Qed.

Lemma sort_ranked_Permutation rank l : sort_ranked rank l ≡ₚ l.
Proof.
  induction l as [|a l IH]; simpl; [done|].
  fold (sort_ranked rank l).
  by rewrite insert_ranked_Permutation, IH.
Qed.

Lemma insert_ranked_HdRel rank c a l :
  timestamp_ge c a → HdRel timestamp_ge c l →
  HdRel timestamp_ge c (insert_ranked rank a l).
Proof.
  intros Hca Hcl. destruct l as [|b l]; simpl; [by constructor|].
  case_decide; constructor; [done|].
  by inversion Hcl.
Qed.

Lemma insert_ranked_Sorted rank a l :
  Sorted timestamp_ge l → Sorted timestamp_ge (insert_ranked rank a l).
Proof.
  induction 1 as [|b l Hl IH Hb]; simpl.
  - by repeat constructor.
  - case_decide as Hle.
    + constructor; [by constructor|]. constructor.
      unfold timestamp_ge. lia.
    + constructor; [done|].
      apply insert_ranked_HdRel; [|done].
      unfold timestamp_ge. lia.
Qed.

Lemma sort_ranked_Sorted rank l :
  StronglySorted timestamp_ge (sort_ranked rank l).
Proof.
  apply (@Sorted_StronglySorted _ timestamp_ge timestamp_ge_trans).
  induction l as [|a l IH]; simpl; [constructor|].
  by apply insert_ranked_Sorted.
Qed.

(** The store of [Query_all] is the one that keeps equal timestamps in
    scan order. *)
Lemma sort_ranked_scan_order q l :
  sort_ranked (scan_order q) l = sort_desc_timestamp l.
Proof.
  induction l as [|a l IH]; simpl; [done|].
  fold (sort_ranked (scan_order q) l). fold (sort_desc_timestamp l).
  rewrite IH. generalize (sort_desc_timestamp l). clear.
  intros l. induction l as [|b l IH]; simpl; [done|].
  unfold scan_order at 1 2.
  destruct (decide (timestamp b < timestamp a
                    ∨ timestamp b = timestamp a ∧ 0 ≤ 0)),
    (decide (timestamp b ≤ timestamp a)); try done; try lia.
  by rewrite IH.
Qed.

Lemma Query_all_in_scan_order s q :
  Query_all_in scan_order s q = Query_all s q.
Proof.
  unfold Query_all_in, Query_all, apply_order_by.
  destruct (_order_by q) as [[]|]; [|done].
  by rewrite sort_ranked_scan_order.
Qed.

(** Rows of distinct timestamps have one descending order only. *)
Lemma sort_ranked_distinct rank l :
  NoDup (timestamp <$> l) → sort_ranked rank l = sort_desc_timestamp l.
Proof.
  intros Hnodup.
  apply (StronglySorted_unique_strong timestamp_ge).
  - intros x y Hx Hy Hxy Hyx.
    apply (NoDup_fmap_inj_on timestamp l); [done|..].
    + by rewrite <- (sort_ranked_Permutation rank l).
    + by rewrite <- (sort_desc_timestamp_Permutation l).
    + unfold timestamp_ge in *. lia.
  - apply sort_ranked_Sorted.
  - apply sort_desc_timestamp_Sorted.
  - by rewrite sort_ranked_Permutation, sort_desc_timestamp_Permutation.
Qed.

Lemma sort_ranked_ext rank1 rank2 l :
  (∀ a, rank1 a = rank2 a) → sort_ranked rank1 l = sort_ranked rank2 l.
Proof.
  intros Hext. induction l as [|a l IH]; simpl; [done|].
  fold (sort_ranked rank1 l). fold (sort_ranked rank2 l). rewrite IH.
  generalize (sort_ranked rank2 l). clear IH.
  intros k. induction k as [|b k IH]; simpl; [done|].
  rewrite !Hext, IH. done.
Qed.

Lemma _activities_at_offset_windowed s q limit offset :
  unwindowed q →
  _activities_at_offset s q limit offset
  = Query_all s (windowed q limit offset).
Proof.
  intros [Ho Hl]. destruct q as [st ob off lim]; simpl in Ho, Hl; subst.
  unfold _activities_at_offset, windowed, truthy_value.
  destruct offset as [o|], limit as [n|]; repeat case_decide; reflexivity.
Qed.

Lemma _activities_at_offset_in_windowed tie s q limit offset :
  unwindowed q →
  _activities_at_offset_in tie s q limit offset
  = Query_all_in tie s (windowed q limit offset).
Proof.
  intros [Ho Hl]. destruct q as [st ob off lim]; simpl in Ho, Hl; subst.
  unfold _activities_at_offset_in, windowed, truthy_value.
  destruct offset as [o|], limit as [n|]; repeat case_decide; reflexivity.
Qed.

Lemma feed_in_scan_order s f limit offset :
  feed_in scan_order s f limit offset = feed s f limit offset.
Proof.
  pose proof (feed_query_unwindowed s f) as Hq.
  unfold feed_in. rewrite feed_unfold.
  rewrite _activities_at_offset_in_windowed, _activities_at_offset_windowed
    by done.
  apply Query_all_in_scan_order.
Qed.

(** What a feed operation returns on any store: the window of the rows
    in the order the store gives them for that very statement. *)
Lemma feed_in_unfold tie s f limit offset :
  feed_in tie s f limit offset =
    (l ←r match truthy_value offset with
          | Some n => apply_offset (bind s) n
                        (ordered_rows_in tie s (feed_query s f) limit offset)
          | None => Ok (ordered_rows_in tie s (feed_query s f) limit offset)
          end;
     match truthy_value limit with
     | Some n => apply_limit (bind s) n l
     | None => Ok l
     end).
Proof.
  unfold feed_in.
  by rewrite _activities_at_offset_in_windowed
    by apply feed_query_unwindowed.
Qed.

Lemma window_row_count d limit offset (L : list Activity) :
  row_count limit → row_count offset →
  (l ←r match truthy_value offset with
        | Some n => apply_offset d n L
        | None => Ok L
        end;
   match truthy_value limit with
   | Some n => apply_limit d n l
   | None => Ok l
   end) = Ok (cap limit (skip offset L)).
Proof.
  intros Hl Ho.
  assert (match truthy_value offset with
          | Some n => apply_offset d n L
          | None => Ok L
          end = Ok (skip offset L)) as ->.
  { destruct offset as [o|]; simpl in *; [|done].
    destruct (decide (o = 0)) as [->|]; [done|].
    by apply apply_offset_row_count. }
  simpl. destruct limit as [n|]; simpl in *; [|done].
  destruct (decide (n = 0)); [done|]. by apply apply_limit_row_count.
Qed.

Lemma feed_in_row_count tie s f limit offset :
  row_count limit → row_count offset →
  feed_in tie s f limit offset
  = Ok (cap limit
          (skip offset (ordered_rows_in tie s (feed_query s f) limit offset))).
Proof.
  intros Hl Ho. rewrite feed_in_unfold. by apply window_row_count.
Qed.

Lemma feed_in_sublist tie s f limit offset l :
  feed_in tie s f limit offset = Ok l →
  l `sublist_of` ordered_rows_in tie s (feed_query s f) limit offset.
Proof.
  rewrite feed_in_unfold.
  set (L := ordered_rows_in tie s (feed_query s f) limit offset).
  destruct (truthy_value offset) as [o|]; simpl.
  - destruct (apply_offset (bind s) o L) as [k|e] eqn:Hk; simpl; [|done].
    apply apply_offset_sublist in Hk.
    destruct (truthy_value limit) as [n|].
    + intros Hl%apply_limit_sublist. by etrans.
    + by intros [= <-].
  - destruct (truthy_value limit) as [n|].
    + apply apply_limit_sublist.
    + by intros [= <-].
Qed.

(** When the store orders equal timestamps without regard to the window,
    or there are no equal timestamps in the feed, every statement of the
    feed gets its rows in one and the same order. *)
Lemma ordered_rows_in_stable tie s f limit offset :
  window_blind tie ∨ distinct_timestamps s f →
  ordered_rows_in tie s (feed_query s f) limit offset
  = ordered_rows_in tie s (feed_query s f) None None.
Proof.
  unfold ordered_rows_in. intros [Hblind | Hdistinct].
  - apply sort_ranked_ext. intros a. apply Hblind.
  - by rewrite !sort_ranked_distinct.
Qed.

Lemma feed_in_distinct tie s f limit offset :
  distinct_timestamps s f →
  feed_in tie s f limit offset = feed s f limit offset.
Proof.
  intros Hdistinct. rewrite <- feed_in_scan_order, !feed_in_unfold.
  unfold ordered_rows_in. by rewrite !sort_ranked_distinct.
Qed.

(** ** Pagination *)

Example pages_of_a_store_with_its_own_tie_order :
  feed_in Ties.by_limit Ties.log (package_feed "P1") (Some 1) (Some 0)
    = Ok [Ties.Aa] ∧
  feed_in Ties.by_limit Ties.log (package_feed "P1") (Some 1) (Some 1)
    = Ok [Ties.Ab] ∧
  feed_in Ties.by_limit Ties.log (package_feed "P1") (Some 2) (Some 0)
    = Ok [Ties.Ab; Ties.Aa].
Proof. repeat split; vm_compute; reflexivity. Qed.

(** C6 fails as stated, in two ways.  A page size [L] whose double is no
    row count the store takes: the two pages of [L] rows return and the
    page of [2L] rows raises.  And two activities with the same
    timestamp on a store that orders them one way for a page of one row
    and the other way for a page of two. *)
Lemma feed_pagination_inconsistent :
  ¬ (∀ s f L, 0 < L →
       ∃ l1 l2 l3,
         feed s f (Some L) (Some 0) = Ok l1 ∧
         feed s f (Some L) (Some L) = Ok l2 ∧
         feed s f (Some (2 * L)) (Some 0) = Ok l3 ∧
         l1 ++ l2 = l3)
  ∧
  ¬ (∀ tie s f L, 0 < L → 2 * L ≤ max_count →
       ∃ l1 l2 l3,
         feed_in tie s f (Some L) (Some 0) = Ok l1 ∧
         feed_in tie s f (Some L) (Some L) = Ok l2 ∧
         feed_in tie s f (Some (2 * L)) (Some 0) = Ok l3 ∧
         l1 ++ l2 = l3).
Proof.
  split; intros H.
  - destruct (H Scenario.log (user_feed "U1") (2 ^ 62))
      as (l1 & l2 & l3 & _ & _ & H3 & _); [done|].
    vm_compute in H3. discriminate.
  - destruct (H Ties.by_limit Ties.log (package_feed "P1") 1)
      as (l1 & l2 & l3 & H1 & H2 & H3 & Heq); [done|done|].
    vm_compute in H1, H2, H3.
    injection H1 as <-. injection H2 as <-. injection H3 as <-.
    discriminate.
Qed.

(** C6, as the code has it: for every feed operation, every subject and
    every positive page size [L] whose double is a row count the store
    takes, on a fixed log, the page at offset 0 followed by the page at
    offset [L] is the page of size [2L] at offset 0, provided the order
    of equal timestamps is settled: the store orders them without
    regard to the window, or the feed has no two activities with the
    same timestamp. *)
Theorem feed_pagination_consistent tie s f L :
  window_blind tie ∨ distinct_timestamps s f →
  0 < L → 2 * L ≤ max_count →
  ∃ l1 l2 l3,
    feed_in tie s f (Some L) (Some 0) = Ok l1 ∧
    feed_in tie s f (Some L) (Some L) = Ok l2 ∧
    feed_in tie s f (Some (2 * L)) (Some 0) = Ok l3 ∧
    l1 ++ l2 = l3.
Proof.
  intros Hstable HL Hmax. do 3 eexists.
  split; [|split; [|split]];
    try (apply feed_in_row_count; simpl; lia).
  rewrite !(ordered_rows_in_stable tie s f (Some _)) by done.
  unfold cap, skip. rewrite !decide_False by lia.
  rewrite drop_0, take_take_drop. f_equal. lia.
Qed.

Lemma feed_pagination_consistent_witness :
  (window_blind Ties.by_limit ∨ distinct_timestamps Scenario.log (user_feed "U1"))
  ∧
  ∃ l1 l2 l3,
    feed_in Ties.by_limit Scenario.log (user_feed "U1") (Some 1) (Some 0)
      = Ok l1 ∧
    feed_in Ties.by_limit Scenario.log (user_feed "U1") (Some 1) (Some 1)
      = Ok l2 ∧
    feed_in Ties.by_limit Scenario.log (user_feed "U1") (Some (2 * 1)) (Some 0)
      = Ok l3 ∧
    l1 ++ l2 = l3.
Proof.
  assert (distinct_timestamps Scenario.log (user_feed "U1")) as Hdistinct.
  { unfold distinct_timestamps.
    apply (bool_decide_unpack
             (NoDup (timestamp <$>
                       selected Scenario.log
                         (feed_query Scenario.log (user_feed "U1"))))).
    vm_compute. exact I. }
  split; [by right|].
  apply (feed_pagination_consistent Ties.by_limit Scenario.log
           (user_feed "U1") 1); [by right|lia|done].
Defined.

(** ** Falsy arguments *)



(** ** Negative arguments *)

Example negative_limit_postgresql :
  feed Scenario.log (user_feed "U1") (Some (-1)) None
  = Raise (DataError "LIMIT must not be negative").
Proof. reflexivity. Qed.

Example negative_limit_sqlite :
  feed (on_sqlite Scenario.log) (user_feed "U1") (Some (-1)) None
  = Ok [Scenario.A2; Scenario.A1].
Proof. reflexivity. Qed.

(** C4 fails as stated: with a limit of -1 the call does not fail with
    [InvalidArgument]; on PostgreSQL the store's own error comes back. *)
Lemma feed_negative_not_InvalidArgument :
  ¬ (∀ s f limit offset,
       (negative limit ∨ negative offset →
          feed s f limit offset = Raise InvalidArgument) ∧
       (non_negative limit → non_negative offset →
          feed s f limit offset ≠ Raise InvalidArgument)).
Proof.
  intros H.
  destruct (H Scenario.log (user_feed "U1") (Some (-1)) None) as [Hneg _].
  assert (negative (Some (-1)) ∨ negative None) as Harg by (left; simpl; lia).
  specialize (Hneg Harg). vm_compute in Hneg. discriminate.
Qed.

(** C4, as the code has it: for every feed operation, a negative limit
    or offset does not make the call fail with [InvalidArgument].  The
    operations have no check of their own: the call is the store's
    execution of the query whose LIMIT and OFFSET are the arguments as
    given, every integer but zero, the negative ones included (nothing
    is clamped here), and whatever is raised is the store's.  For
    non-negative arguments no such error occurs either. *)
Theorem feed_window_not_validated s f limit offset :
  feed s f limit offset ≠ Raise InvalidArgument ∧
  feed s f limit offset
  = Query_all s (windowed (feed_query s f) limit offset) ∧
  (∀ n, limit = Some n → n ≠ 0 →
        _limit (windowed (feed_query s f) limit offset) = Some n) ∧
  (∀ n, offset = Some n → n ≠ 0 →
        _offset (windowed (feed_query s f) limit offset) = Some n).
Proof.
  pose proof (feed_query_unwindowed s f) as Hq.
  split; [|split; [|split]].
  - rewrite feed_unfold. by apply _activities_at_offset_no_InvalidArgument.
  - rewrite feed_unfold. by apply _activities_at_offset_windowed.
  - intros n -> Hn. simpl. by rewrite decide_False.
  - intros n -> Hn. simpl. by rewrite decide_False.
Qed.

(** ** A group that does not exist *)

Lemma rows_no_results s :
  rows s (statement (Query_filter Session_query_Activity Text_0_eq_1)) = [].
Proof.
  simpl. induction (activity_table s) as [|a l IH]; [done|].
  rewrite fmap_cons, filter_cons_False; [exact IH|]. simpl. tauto.
Qed.

Lemma ordered_rows_no_results s :
  ordered_rows s (Query_filter Session_query_Activity Text_0_eq_1) = [].
Proof. unfold ordered_rows. by rewrite rows_no_results. Qed.

(** C5: for every group id that is not in the group store and every
    limit and offset (a row count, or none), [group_activity_list]
    returns the empty sequence and raises no error. *)
Theorem group_activity_list_unknown_group s g limit offset :
  Group_get s g = None →
  row_count limit → row_count offset →
  group_activity_list s g limit offset = Ok [].
Proof.
  intros Hg Hl Ho. unfold group_activity_list, _group_activity_query.
  rewrite Hg.
  rewrite _activities_at_offset_row_count by done.
  rewrite ordered_rows_no_results.
  destruct offset as [o|], limit as [n|]; simpl;
    repeat case_decide; by rewrite ?drop_nil, ?take_nil.
Qed.

Lemma group_activity_list_unknown_group_witness :
  Group_get Scenario.log "nonexistent-id" = None ∧
  group_activity_list Scenario.log "nonexistent-id" (Some 10) (Some 0) = Ok [].
Proof.
  split; [reflexivity|].
  apply (group_activity_list_unknown_group Scenario.log "nonexistent-id"
           (Some 10) (Some 0)).
  - reflexivity.
  - unfold row_count, max_count. lia.
  - unfold row_count, max_count. lia.
Defined.

(** ** Unions *)

Lemma activities_Union s q qs :
  row_activity <$> rows s (Union q qs)
  = remove_dups (row_activity <$> (rows s q ++ flat_map (rows s) qs)).
Proof. simpl. apply fmap_activity_entity. Qed.

Lemma elem_of_ordered_rows s q a :
  a ∈ ordered_rows s q ↔ a ∈ row_activity <$> rows s (statement q).
Proof. by rewrite ordered_rows_Permutation. Qed.

Lemma ordered_rows_union_NoDup s q qs :
  NoDup (ordered_rows s (Query_union q qs)).
Proof.
  rewrite ordered_rows_Permutation. simpl statement.
  rewrite activities_Union. apply NoDup_remove_dups.
Qed.

(** An activity is in a union exactly when one of the branches selects
    it. *)
Lemma elem_of_ordered_rows_union s q qs a :
  a ∈ ordered_rows s (Query_union q qs) ↔
  ∃ q', q' ∈ q :: qs ∧ a ∈ row_activity <$> rows s (statement q').
Proof.
  rewrite elem_of_ordered_rows. simpl statement.
  rewrite activities_Union, elem_of_remove_dups, fmap_app, elem_of_app.
  split.
  - intros [Ha | Ha].
    + exists q. split; [left|done].
    + apply list_elem_of_fmap in Ha as (r & -> & Hr).
      apply list_elem_of_In, in_flat_map in Hr as (st & Hst & Hr).
      apply list_elem_of_In, list_elem_of_fmap in Hst as (q' & -> & Hq').
      exists q'. split; [by right|].
      apply list_elem_of_fmap. exists r. by rewrite list_elem_of_In.
  - intros (q' & Hq' & Ha). apply elem_of_cons in Hq' as [-> | Hq']; [by left|].
    right. apply list_elem_of_fmap in Ha as (r & -> & Hr).
    apply list_elem_of_fmap. exists r. split; [done|].
    apply list_elem_of_In, in_flat_map. exists (statement q').
    split; apply list_elem_of_In; [|done].
    apply list_elem_of_fmap. by exists q'.
Qed.

Lemma elem_of_activities_filter s c a :
  a ∈ row_activity <$> rows s (statement (Query_filter Session_query_Activity c))
  ↔ a ∈ activity_table s ∧ holds (bind s) c (entity a).
Proof.
  simpl. rewrite list_elem_of_fmap. split.
  - intros (r & -> & Hr).
    apply list_elem_of_filter in Hr as [Hc Hr].
    apply list_elem_of_fmap in Hr as (b & -> & Hb). by split.
  - intros [Ha Hc]. exists (entity a). split; [done|].
    apply list_elem_of_filter. split; [done|].
    apply list_elem_of_fmap. by exists a.
Qed.

(** ** The user's public feed holds no activity twice *)

(** C2 fails as stated: an activity of a user about themselves that lies
    outside the requested window is not in the page at all. *)
Lemma user_activity_list_window_misses :
  ¬ (∀ s u a limit offset,
       a ∈ activity_table s → user_id a = u → object_id a = u →
       ∃ l, user_activity_list s u limit offset = Ok l ∧ occurrences a l = 1%nat).
Proof.
  intros H.
  destruct (H Scenario.log "U1" Scenario.A1 (Some 1) None)
    as (l & Hl & Hocc); [by left|done|done|].
  vm_compute in Hl. injection Hl as <-.
  vm_compute in Hocc. discriminate.
Qed.

(** C2, as the code has it: for an activity [a] of the log with
    [a.user_id == u] and [a.object_id == u], every page of
    [user_activity_list(u, limit, offset)] contains [a] at most once,
    and the whole feed (limit and offset zero or absent) contains it
    exactly once: the from-user and about-user queries are combined by
    UNION. *)
Theorem user_activity_list_once s u a :
  a ∈ activity_table s → user_id a = u → object_id a = u →
  (∀ limit offset l, user_activity_list s u limit offset = Ok l →
     (occurrences a l ≤ 1)%nat) ∧
  (∀ limit offset, falsy limit → falsy offset →
     ∃ l, user_activity_list s u limit offset = Ok l ∧
          occurrences a l = 1%nat).
Proof.
  intros Ha Hu Ho.
  pose proof (ordered_rows_union_NoDup s (_activities_from_user_query u)
                [_activities_about_user_query u]) as Hnodup.
  split.
  - intros limit offset l Hl. unfold occurrences.
    apply NoDup_count_occ, NoDup_ListNoDup.
    apply (_activities_at_offset_sublist s (_user_activity_query u)) in Hl;
      [|done].
    exact (sublist_NoDup _ _ Hnodup Hl).
  - intros limit offset Hlim Hoff.
    exists (feed_rows s (user_feed u)). split.
    + by apply (feed_falsy s (user_feed u)).
    + unfold occurrences.
      apply NoDup_ListNoDup in Hnodup.
      apply (proj1 (NoDup_count_occ' Activity_eq_dec _) Hnodup).
      apply list_elem_of_In, elem_of_ordered_rows_union.
      exists (_activities_from_user_query u). split; [left|].
      apply elem_of_activities_filter. split; [done|].
      simpl. by rewrite Hu, bool_decide_true.
Qed.

Lemma user_activity_list_once_witness :
  Scenario.A1 ∈ activity_table Scenario.log ∧
  ∃ l, user_activity_list Scenario.log "U1" (Some 0) None = Ok l ∧
       occurrences Scenario.A1 l = 1%nat.
Proof.
  assert (Hin : Scenario.A1 ∈ activity_table Scenario.log) by (by left).
  split; [exact Hin|].
  apply (proj2 (user_activity_list_once Scenario.log "U1" Scenario.A1
                  Hin eq_refl eq_refl) (Some 0) None).
  - by right.
  - by left.
Defined.

(** ** The dashboard *)

(** C7: for every user and every log, every activity of the whole
    (unwindowed) user feed is in the whole dashboard feed. *)
Theorem dashboard_superset_of_user_feed s u :
  ∃ l1 l2,
    user_activity_list s u None None = Ok l1 ∧
    dashboard_activity_list s u None None = Ok l2 ∧
    ∀ a, a ∈ l1 → a ∈ l2.
Proof.
  exists (feed_rows s (user_feed u)), (feed_rows s (dashboard_feed u)).
  split; [|split].
  - apply (feed_falsy s (user_feed u)); by left.
  - apply (feed_falsy s (dashboard_feed u)); by left.
  - intros a. unfold feed_rows. simpl feed_query.
    unfold _user_activity_query, _dashboard_activity_query.
    rewrite !elem_of_ordered_rows_union.
    intros (q' & Hq' & Ha). exists q'. split; [|done].
    apply elem_of_cons in Hq' as [-> | Hq']; [by left|].
    apply list_elem_of_singleton in Hq' as ->. right. by left.
Qed.

(** ** Everything a user follows *)

(** C9: for every user, [activities_from_everything_followed_by_user]
    returns each activity at most once, also when the UNION ALL over the
    followed groups selects an activity several times: the outer
    combination is a UNION. *)
Theorem followed_feed_no_duplicates s u limit offset l :
  activities_from_everything_followed_by_user s u limit offset = Ok l →
  NoDup l ∧ ∀ a, (occurrences a l ≤ 1)%nat.
Proof.
  intros Hl.
  assert (NoDup l) as Hnodup.
  { apply (feed_sublist s (followed_feed u)) in Hl.
    exact (sublist_NoDup _ _ (ordered_rows_union_NoDup _ _ _) Hl). }
  split; [done|]. intros a. by apply NoDup_count_occ, NoDup_ListNoDup.
Qed.

Lemma followed_feed_no_duplicates_witness :
  activities_from_everything_followed_by_user Overlap.log "U1" None None
    = Ok [Overlap.B2; Overlap.B1]
  ∧ NoDup [Overlap.B2; Overlap.B1].
Proof.
  split; [reflexivity|].
  apply (followed_feed_no_duplicates Overlap.log "U1" None None).
  reflexivity.
Defined.

(** ** A user who follows no group *)

Lemma _activities_at_offset_ext s q1 q2 limit offset :
  unwindowed q1 → unwindowed q2 →
  ordered_rows s q1 = ordered_rows s q2 →
  _activities_at_offset s q1 limit offset
  = _activities_at_offset s q2 limit offset.
Proof.
  intros H1 H2 Heq. rewrite !_activities_at_offset_unfold by done.
  by rewrite Heq.
Qed.





(** ** The constructors *)

(** C10: an [Activity] or an [ActivityDetail] built with [data] omitted
    or [None] has the empty mapping as its [data], never [None]; built
    with a mapping, it has exactly that mapping. *)
Theorem init_data s now u o r t activity_id object_type :
  data (Activity__init__ s now u o r t None) = Some ∅ ∧
  (∀ d, data (Activity__init__ s now u o r t (Some d)) = Some d) ∧
  (∀ d, data (Activity__init__ s now u o r t d) ≠ None) ∧
  detail_data (ActivityDetail__init__ activity_id o object_type t None)
    = Some ∅ ∧
  (∀ d, detail_data
          (ActivityDetail__init__ activity_id o object_type t (Some d))
        = Some d) ∧
  (∀ d, detail_data (ActivityDetail__init__ activity_id o object_type t d)
        ≠ None).
Proof.
  repeat split; try done; by intros [d|].
Qed.


(** * Further properties of the feeds *)

(** ** What a page is cut from *)

Lemma elem_of_feed_rows s f a :
  a ∈ feed_rows s f ↔ a ∈ selected s (feed_query s f).
Proof. apply elem_of_ordered_rows. Qed.

Lemma feed_in_whole tie s f :
  feed_in tie s f None None
  = Ok (ordered_rows_in tie s (feed_query s f) None None).
Proof. by rewrite feed_in_row_count. Qed.

(** On a store that settles the order of equal timestamps without regard
    to the window, or for a feed with no two equal timestamps, every
    page an operation returns, whatever the limit and offset, is cut out
    of the whole feed, the result of the same operation with no limit
    and no offset: its rows are rows of the whole feed, in the same
    order. *)
Theorem feed_page_sublist_of_whole tie s f limit offset l :
  window_blind tie ∨ distinct_timestamps s f →
  feed_in tie s f limit offset = Ok l →
  ∃ whole, feed_in tie s f None None = Ok whole ∧ l `sublist_of` whole.
Proof.
  intros Hstable Hl. eexists. split; [apply feed_in_whole|].
  rewrite <- (ordered_rows_in_stable tie s f limit offset) by done.
  by apply feed_in_sublist.
Qed.

Lemma feed_page_sublist_of_whole_witness :
  ∃ whole,
    feed_in Ties.by_limit Scenario.log (user_feed "U1") None None = Ok whole ∧
    [Scenario.A2] `sublist_of` whole.
Proof.
  apply (feed_page_sublist_of_whole Ties.by_limit Scenario.log
           (user_feed "U1") (Some 1) None).
  - right. unfold distinct_timestamps.
    apply (bool_decide_unpack
             (NoDup (timestamp <$>
                       selected Scenario.log
                         (feed_query Scenario.log (user_feed "U1"))))).
    vm_compute. exact I.
  - reflexivity.
Defined.

(** ** What each feed selects *)

Lemma whole_feed s f : feed s f None None = Ok (feed_rows s f).
Proof. apply feed_falsy; by left. Qed.

Lemma elem_of_page s f limit offset l a :
  feed s f limit offset = Ok l → a ∈ l → a ∈ selected s (feed_query s f).
Proof.
  intros Hl Ha. apply elem_of_feed_rows.
  eapply elem_of_sublist; [exact Ha|]. by eapply feed_sublist.
Qed.

Lemma substring_all (s : string) : String.substring 0 (String.length s) s = s.
Proof. induction s as [|c s IH]; simpl; [done|]. by rewrite IH. Qed.

Lemma substring_append (p s : string) :
  String.substring (String.length p) (String.length s) (p +:+ s) = s.
Proof. induction p as [|c p IH]; simpl; [apply substring_all|done]. Qed.

Lemma substring_split (s : string) (k : nat) :
  (k ≤ String.length s)%nat →
  s = String.substring 0 k s +:+ String.substring k (String.length s - k) s.
Proof.
  revert k. induction s as [|c s IH]; intros k Hk; simpl in *.
  - by destruct k.
  - destruct k as [|k]; simpl.
    + by rewrite substring_all.
    + change (String c s
              = String c (String.substring 0 k s
                          +:+ String.substring k (String.length s - k) s)).
      f_equal. apply IH. lia.
Qed.

Lemma length_append (p s : string) :
  String.length (p +:+ s) = (String.length p + String.length s)%nat.
Proof. induction p as [|c p IH]; simpl; [done|]. by rewrite IH. Qed.

(** [endswith] holds exactly of the strings that are some prefix
    followed by the suffix. *)
Lemma endswith_spec (s suffix : string) :
  endswith s suffix ↔ ∃ prefix, s = prefix +:+ suffix.
Proof.
  unfold endswith. split.
  - case_decide as Hle; [|done]. intros Heq%bool_decide_unpack.
    exists (String.substring 0 (String.length s - String.length suffix) s).
    rewrite <- Heq at 2.
    rewrite (substring_split s (String.length s - String.length suffix))
      at 1 by lia.
    do 2 f_equal. lia.
  - intros [prefix ->]. rewrite length_append.
    rewrite decide_True by lia. apply bool_decide_pack.
    replace (String.length prefix + String.length suffix
             - String.length suffix)%nat
      with (String.length prefix) by lia.
    apply substring_append.
Qed.

Lemma feed_selects s f (P : Activity → Prop) :
  (∀ a, a ∈ selected s (feed_query s f) ↔ P a) →
  (∃ whole, feed s f None None = Ok whole ∧ ∀ a, a ∈ whole ↔ P a) ∧
  (∀ limit offset l a, feed s f limit offset = Ok l → a ∈ l → P a).
Proof.
  intros HP. split.
  - exists (feed_rows s f). split; [apply whole_feed|].
    intros a. by rewrite elem_of_feed_rows.
  - intros limit offset l a Hl Ha. apply HP. by eapply elem_of_page.
Qed.

Lemma elem_of_selected_filter s c a :
  a ∈ selected s (Query_filter Session_query_Activity c)
  ↔ a ∈ activity_table s ∧ holds (bind s) c (entity a).
Proof. apply elem_of_activities_filter. Qed.

Lemma elem_of_selected_union s q qs a :
  a ∈ selected s (Query_union q qs) ↔ ∃ q', q' ∈ q :: qs ∧ a ∈ selected s q'.
Proof.
  unfold selected. rewrite <- (elem_of_ordered_rows s (Query_union q qs)).
  apply elem_of_ordered_rows_union.
Qed.

Lemma elem_of_selected_from_user s u a :
  a ∈ selected s (_activities_from_user_query u)
  ↔ a ∈ activity_table s ∧ user_id a = u.
Proof.
  unfold _activities_from_user_query. rewrite elem_of_selected_filter.
  simpl. by rewrite bool_decide_spec.
Qed.

Lemma elem_of_selected_about s x a :
  a ∈ selected s (_activities_about_user_query x)
  ↔ a ∈ activity_table s ∧ object_id a = x.
Proof.
  unfold _activities_about_user_query. rewrite elem_of_selected_filter.
  simpl. by rewrite bool_decide_spec.
Qed.

Lemma elem_of_selected_user s u a :
  a ∈ selected s (_user_activity_query u)
  ↔ a ∈ activity_table s ∧ (user_id a = u ∨ object_id a = u).
Proof.
  unfold _user_activity_query. rewrite elem_of_selected_union. split.
  - intros (q' & Hq' & Ha).
    apply elem_of_cons in Hq' as [-> | Hq'].
    + apply elem_of_selected_from_user in Ha as [??]. by auto.
    + apply list_elem_of_singleton in Hq' as ->.
      apply elem_of_selected_about in Ha as [??]. by auto.
  - intros [Ha [Hu | Ho]].
    + exists (_activities_from_user_query u). split; [by left|].
      by apply elem_of_selected_from_user.
    + exists (_activities_about_user_query u). split; [right; by left|].
      by apply elem_of_selected_about.
Qed.

Lemma elem_of_selected_group s g a :
  a ∈ selected s (_group_activity_query s g)
  ↔ a ∈ activity_table s ∧ about_group s g a.
Proof.
  unfold _group_activity_query, about_group.
  destruct (Group_get s g) as [group|].
  - destruct (packages group) as [|d ds] eqn:Hds;
      [change (package_id <$> []) with (@nil string)
      |rewrite fmap_cons]; cbv iota;
      rewrite elem_of_selected_filter; simpl.
    + rewrite bool_decide_spec. split.
      * intros [Ha Ho]. split; [done|]. exists group. by auto.
      * intros [Ha (group' & [= <-] & [Ho | Ho])]; [done|].
        rewrite Hds in Ho. by apply elem_of_nil in Ho.
    + rewrite orb_True, !bool_decide_spec. split.
      * intros [Ha Ho]. split; [done|]. exists group. split; [done|].
        by rewrite Hds.
      * intros [Ha (group' & [= <-] & Ho)]. split; [done|].
        by rewrite Hds in Ho.
  - rewrite elem_of_selected_filter. simpl. split; [by intros [_ []]|].
    by intros [_ (group & [=] & _)].
Qed.

Lemma like_suffix_spec d (x suffix : string) :
  like_suffix d x suffix ↔
  match d with
  | PostgreSQL => ∃ prefix, x = prefix +:+ suffix
  | SQLite => ∃ prefix, lower x = prefix +:+ lower suffix
  end.
Proof. destruct d; apply endswith_spec. Qed.

Lemma elem_of_selected_changed_packages s a :
  a ∈ selected s _changed_packages_activity_query
  ↔ a ∈ activity_table s ∧
    match bind s with
    | PostgreSQL => ∃ prefix, activity_type a = prefix +:+ "package"
    | SQLite => ∃ prefix, lower (activity_type a) = prefix +:+ "package"
    end.
Proof.
  unfold _changed_packages_activity_query. rewrite elem_of_selected_filter.
  cbn [holds column_value row_activity entity].
  rewrite like_suffix_spec. by destruct (bind s).
Qed.

(** [package_activity_list]: the whole feed holds exactly the activities
    of the log whose object is the dataset, and a page holds nothing
    else. *)
Theorem package_activity_list_selects s p :
  (∃ whole, package_activity_list s p None None = Ok whole ∧
     ∀ a, a ∈ whole ↔ a ∈ activity_table s ∧ object_id a = p) ∧
  (∀ limit offset l a, package_activity_list s p limit offset = Ok l →
     a ∈ l → a ∈ activity_table s ∧ object_id a = p).
Proof.
  apply (feed_selects s (package_feed p)). apply elem_of_selected_about.
Qed.

(** [user_activity_list]: the whole feed holds exactly the activities of
    the log of which the user is the subject or the object, and a page
    holds nothing else. *)
Theorem user_activity_list_selects s u :
  (∃ whole, user_activity_list s u None None = Ok whole ∧
     ∀ a, a ∈ whole ↔
       a ∈ activity_table s ∧ (user_id a = u ∨ object_id a = u)) ∧
  (∀ limit offset l a, user_activity_list s u limit offset = Ok l →
     a ∈ l → a ∈ activity_table s ∧ (user_id a = u ∨ object_id a = u)).
Proof.
  apply (feed_selects s (user_feed u)). apply elem_of_selected_user.
Qed.

(** [group_activity_list]: the whole feed holds exactly the activities of
    the log whose object is the group, when it exists, or one of the
    datasets of the group, and a page holds nothing else. *)
Theorem group_activity_list_selects s g :
  (∃ whole, group_activity_list s g None None = Ok whole ∧
     ∀ a, a ∈ whole ↔ a ∈ activity_table s ∧ about_group s g a) ∧
  (∀ limit offset l a, group_activity_list s g limit offset = Ok l →
     a ∈ l → a ∈ activity_table s ∧ about_group s g a).
Proof.
  apply (feed_selects s (group_feed g)). apply elem_of_selected_group.
Qed.

Example capitals_on_sqlite :
  recently_changed_packages_activity_list Capitals.log None None
  = Ok [Capitals.A3].
Proof. vm_compute. reflexivity. Qed.

(** [recently_changed_packages_activity_list]: the whole feed holds
    exactly the activities of the log whose type ends in ["package"] as
    the LIKE of the store compares: letter for letter on PostgreSQL,
    without regard to the case of ASCII letters on SQLite; a page holds
    nothing else. *)
Theorem recently_changed_packages_selects s :
  (∃ whole, recently_changed_packages_activity_list s None None = Ok whole ∧
     ∀ a, a ∈ whole ↔
       a ∈ activity_table s ∧
       match bind s with
       | PostgreSQL => ∃ prefix, activity_type a = prefix +:+ "package"
       | SQLite => ∃ prefix, lower (activity_type a) = prefix +:+ "package"
       end) ∧
  (∀ limit offset l a,
     recently_changed_packages_activity_list s limit offset = Ok l →
     a ∈ l →
     a ∈ activity_table s ∧
     match bind s with
     | PostgreSQL => ∃ prefix, activity_type a = prefix +:+ "package"
     | SQLite => ∃ prefix, lower (activity_type a) = prefix +:+ "package"
     end).
Proof.
  apply (feed_selects s changed_packages_feed).
  apply elem_of_selected_changed_packages.
Qed.

(** A join with a follower table on [col], filtered by the follower:
    the activities whose [col] the user follows. *)
Lemma elem_of_selected_join s t col (get : Activity → string) u a :
  (∀ r, column_value col r = Some (get (row_activity r))) →
  a ∈ selected s
        (Query_filter
           (Query_join Session_query_Activity t
              (EqColumn (Following_object_id t) col))
           (Eq (Following_follower_id t) u))
  ↔ a ∈ activity_table s ∧ follows (follow_table s t) u (get a).
Proof.
  intros Hcol. unfold selected, follows.
  cbn [statement Query_filter Query_join Session_query_Activity rows].
  rewrite list_elem_of_fmap. split.
  - intros (r & -> & Hr).
    apply list_elem_of_filter in Hr as [Hc Hr].
    apply list_elem_of_bind in Hr as (r0 & Hr & Hr0).
    apply list_elem_of_fmap in Hr0 as (a0 & -> & Ha0).
    apply list_elem_of_bind in Hr as (f & Hr & Hf).
    cbn [holds column_value] in Hr. rewrite Hcol in Hr.
    cbn [row_joined row_activity entity joined] in Hr.
    rewrite decide_True in Hr by done. cbn [fmap option_fmap option_map] in Hr.
    case_bool_decide as Hobj; [|by apply elem_of_nil in Hr].
    apply list_elem_of_singleton in Hr as ->.
    cbn [holds column_value row_joined row_activity joined] in Hc |- *.
    rewrite decide_True in Hc by done.
    cbn [fmap option_fmap option_map] in Hc.
    apply bool_decide_unpack in Hc.
    split; [done|]. destruct f as [fu fo]; simpl in *. by subst.
  - intros [Ha Hf].
    exists {| row_activity := a;
              row_joined := [(t, mkFollowing u (get a))] |}.
    split; [done|]. apply list_elem_of_filter. split.
    + cbn [holds column_value row_joined joined].
      rewrite decide_True by done. simpl. by apply bool_decide_pack.
    + apply list_elem_of_bind. exists (entity a). split.
      * apply list_elem_of_bind. exists (mkFollowing u (get a)).
        split; [|done].
        cbn [holds column_value]. rewrite Hcol.
        cbn [row_joined row_activity entity joined].
        rewrite decide_True by done. simpl.
        rewrite bool_decide_true by done. by left.
      * apply list_elem_of_fmap. by exists a.
Qed.

Lemma elem_of_selected_users_followed s u a :
  a ∈ selected s (_activites_from_users_followed_by_user_query u)
  ↔ a ∈ activity_table s
    ∧ follows (user_following_user_table s) u (user_id a).
Proof. by apply (elem_of_selected_join s UserFollowingUser). Qed.

Lemma elem_of_selected_datasets_followed s u a :
  a ∈ selected s (_activities_from_datasets_followed_by_user_query u)
  ↔ a ∈ activity_table s
    ∧ follows (user_following_dataset_table s) u (object_id a).
Proof. by apply (elem_of_selected_join s UserFollowingDataset). Qed.

(** ** The groups a user follows *)

Lemma elem_of_followee_list s u f :
  f ∈ UserFollowingGroup_followee_list s u
  ↔ follower_id f = u ∧ f ∈ user_following_group_table s.
Proof.
  unfold UserFollowingGroup_followee_list. by rewrite list_elem_of_filter.
Qed.

Lemma selected_flat_map s (g : Following → Query) (fs : list Following) :
  row_activity <$> flat_map (rows s) (statement <$> (g <$> fs))
  = fs ≫= (λ f, selected s (g f)).
Proof.
  induction fs as [|f fs IH]; [done|].
  cbn [fmap list_fmap flat_map mbind list_bind].
  rewrite fmap_app. f_equal. exact IH.
Qed.

Lemma selected_groups_followed_eq s u :
  selected s (_activities_from_groups_followed_by_user_query s u)
  = UserFollowingGroup_followee_list s u
      ≫= (λ follower,
            selected s (_group_activity_query s (followee_id follower))).
Proof.
  unfold _activities_from_groups_followed_by_user_query.
  destruct (UserFollowingGroup_followee_list s u) as [|first rest].
  - unfold selected. by rewrite rows_no_results.
  - unfold selected at 1. cbn [statement Query_union_all rows].
    by rewrite fmap_activity_entity, fmap_app, selected_flat_map.
Qed.

(** [_activities_from_groups_followed_by_user_query]: as a bag, the
    statement selects what the group query of each followed group
    selects: a row is there once for every followed group that has it
    (UNION ALL keeps repeats), and for a user who follows no group there
    is none. *)
Theorem followed_groups_query_concatenates s u :
  selected s (_activities_from_groups_followed_by_user_query s u)
  ≡ₚ UserFollowingGroup_followee_list s u
       ≫= (λ follower,
             selected s (_group_activity_query s (followee_id follower))).
Proof. by rewrite selected_groups_followed_eq. Qed.

Lemma elem_of_selected_groups_followed s u a :
  a ∈ selected s (_activities_from_groups_followed_by_user_query s u)
  ↔ a ∈ activity_table s
    ∧ ∃ g, follows (user_following_group_table s) u g ∧ about_group s g a.
Proof.
  rewrite selected_groups_followed_eq, list_elem_of_bind.
  unfold follows. split.
  - intros (f & Ha & Hf). apply elem_of_selected_group in Ha as [Ha Hg].
    apply elem_of_followee_list in Hf as [Hu Hf].
    split; [done|]. exists (followee_id f). split; [|done].
    destruct f as [fu fo]; simpl in *. by subst.
  - intros [Ha (g & Hf & Hg)]. exists (mkFollowing u g). split.
    + by apply elem_of_selected_group.
    + by apply elem_of_followee_list.
Qed.

Lemma elem_of_selected_followed s u a :
  a ∈ selected s (_activities_from_everything_followed_by_user_query s u)
  ↔ a ∈ activity_table s ∧
    (follows (user_following_user_table s) u (user_id a) ∨
     follows (user_following_dataset_table s) u (object_id a) ∨
     ∃ g, follows (user_following_group_table s) u g ∧ about_group s g a).
Proof.
  unfold _activities_from_everything_followed_by_user_query.
  rewrite elem_of_selected_union. split.
  - intros (q' & Hq' & Ha). apply elem_of_cons in Hq' as [-> | Hq'].
    + apply elem_of_selected_union in Ha as (q' & Hq' & Ha).
      apply elem_of_cons in Hq' as [-> | Hq'].
      * apply elem_of_selected_users_followed in Ha as [??]. by auto.
      * apply list_elem_of_singleton in Hq' as ->.
        apply elem_of_selected_datasets_followed in Ha as [??]. by auto.
    + apply list_elem_of_singleton in Hq' as ->.
      apply elem_of_selected_groups_followed in Ha as [??]. by auto.
  - intros [Ha [Hu | [Hd | Hg]]].
    + eexists. split; [by left|]. apply elem_of_selected_union.
      eexists. split; [by left|]. by apply elem_of_selected_users_followed.
    + eexists. split; [by left|]. apply elem_of_selected_union.
      eexists. split; [right; by left|].
      by apply elem_of_selected_datasets_followed.
    + eexists. split; [right; by left|].
      by apply elem_of_selected_groups_followed.
Qed.

(** [activities_from_everything_followed_by_user]: the whole feed holds
    exactly the activities of the log whose author the user follows,
    whose object is a dataset the user follows, or that are about a
    group the user follows or one of its datasets; a page holds nothing
    else. *)
Theorem followed_feed_selects s u :
  (∃ whole,
     activities_from_everything_followed_by_user s u None None = Ok whole ∧
     ∀ a, a ∈ whole ↔
       a ∈ activity_table s ∧
       (follows (user_following_user_table s) u (user_id a) ∨
        follows (user_following_dataset_table s) u (object_id a) ∨
        ∃ g, follows (user_following_group_table s) u g ∧ about_group s g a))
  ∧
  (∀ limit offset l a,
     activities_from_everything_followed_by_user s u limit offset = Ok l →
     a ∈ l →
     a ∈ activity_table s ∧
     (follows (user_following_user_table s) u (user_id a) ∨
      follows (user_following_dataset_table s) u (object_id a) ∨
      ∃ g, follows (user_following_group_table s) u g ∧ about_group s g a)).
Proof.
  apply (feed_selects s (followed_feed u)). apply elem_of_selected_followed.
Qed.

(** ** The dashboard is the two feeds together *)

Lemma elem_of_selected_dashboard s u a :
  a ∈ selected s (_dashboard_activity_query s u)
  ↔ a ∈ selected s (_user_activity_query u)
    ∨ a ∈ selected s (_activities_from_everything_followed_by_user_query s u).
Proof.
  rewrite elem_of_selected_user, elem_of_selected_followed.
  unfold _dashboard_activity_query. rewrite elem_of_selected_union. split.
  - intros (q' & Hq' & Ha).
    repeat (apply elem_of_cons in Hq' as [-> | Hq']).
    + apply elem_of_selected_from_user in Ha as [??]. by auto.
    + apply elem_of_selected_about in Ha as [??]. by auto.
    + apply elem_of_selected_users_followed in Ha as [??]. by auto.
    + apply elem_of_selected_datasets_followed in Ha as [??]. by auto 6.
    + apply elem_of_selected_groups_followed in Ha as [??]. by auto 6.
    + by apply elem_of_nil in Hq'.
  - intros [[Ha [H | H]] | [Ha [H | [H | H]]]].
    + exists (_activities_from_user_query u). split; [by left|].
      by apply elem_of_selected_from_user.
    + exists (_activities_about_user_query u). split; [right; by left|].
      by apply elem_of_selected_about.
    + exists (_activites_from_users_followed_by_user_query u).
      split; [do 2 right; by left|].
      by apply elem_of_selected_users_followed.
    + exists (_activities_from_datasets_followed_by_user_query u).
      split; [do 3 right; by left|].
      by apply elem_of_selected_datasets_followed.
    + exists (_activities_from_groups_followed_by_user_query s u).
      split; [do 4 right; by left|].
      by apply elem_of_selected_groups_followed.
Qed.

(** [dashboard_activity_list]: the whole dashboard holds exactly the
    activities of the whole [user_activity_list] and of the whole
    [activities_from_everything_followed_by_user], as its docstring
    says. *)
Theorem dashboard_is_union_of_feeds s u :
  ∃ dashboard public followed,
    dashboard_activity_list s u None None = Ok dashboard ∧
    user_activity_list s u None None = Ok public ∧
    activities_from_everything_followed_by_user s u None None = Ok followed ∧
    ∀ a, a ∈ dashboard ↔ a ∈ public ∨ a ∈ followed.
Proof.
  exists (feed_rows s (dashboard_feed u)), (feed_rows s (user_feed u)),
    (feed_rows s (followed_feed u)).
  split; [apply (whole_feed s (dashboard_feed u))|].
  split; [apply (whole_feed s (user_feed u))|].
  split; [apply (whole_feed s (followed_feed u))|].
  intros a. rewrite !elem_of_feed_rows. apply elem_of_selected_dashboard.
Qed.

(** ** More on windows *)

(** On a store that settles the order of equal timestamps without regard
    to the window, or for a feed with no two equal timestamps,
    consecutive pages join up at any starting row: the page of [L1] rows
    at offset [o] followed by the page of [L2] rows at offset [o + L1]
    is the page of [L1 + L2] rows at offset [o], as long as all of these
    are row counts the store takes. *)
Theorem feed_pages_compose tie s f o L1 L2 :
  window_blind tie ∨ distinct_timestamps s f →
  0 ≤ o → 0 < L1 → 0 < L2 → o + L1 + L2 ≤ max_count →
  ∃ l1 l2 l3,
    feed_in tie s f (Some L1) (Some o) = Ok l1 ∧
    feed_in tie s f (Some L2) (Some (o + L1)) = Ok l2 ∧
    feed_in tie s f (Some (L1 + L2)) (Some o) = Ok l3 ∧
    l1 ++ l2 = l3.
Proof.
  intros Hstable Ho H1 H2 Hmax. do 3 eexists.
  split; [|split; [|split]];
    try (apply feed_in_row_count; simpl; lia).
  rewrite !(ordered_rows_in_stable tie s f (Some _)) by done.
  unfold cap, skip. rewrite !decide_False by lia.
  replace (Z.to_nat (o + L1)) with (Z.to_nat o + Z.to_nat L1)%nat by lia.
  rewrite <- drop_drop, take_take_drop. f_equal. lia.
Qed.

Lemma feed_pages_compose_witness :
  ∃ l1 l2 l3,
    feed_in scan_order Overlap.log (dashboard_feed "U1") (Some 1) (Some 1)
      = Ok l1 ∧
    feed_in scan_order Overlap.log (dashboard_feed "U1") (Some 2)
      (Some (1 + 1)) = Ok l2 ∧
    feed_in scan_order Overlap.log (dashboard_feed "U1") (Some (1 + 2))
      (Some 1) = Ok l3 ∧
    l1 ++ l2 = l3.
Proof.
  apply (feed_pages_compose scan_order Overlap.log (dashboard_feed "U1")
           1 1 2); [|lia|lia|lia|done].
  left. intros q limit offset a. reflexivity.
Defined.

Lemma length_ordered_rows_in tie s q limit offset :
  length (ordered_rows_in tie s q limit offset) = length (selected s q).
Proof.
  unfold ordered_rows_in. by rewrite sort_ranked_Permutation.
Qed.

(** On any store, a page with a limit [L] and an offset [o] that are row
    counts, [L] positive, holds [L] rows, or the rows left after the
    first [o] when those are fewer than [L]. *)
Theorem feed_page_length tie s f L o :
  0 < L ≤ max_count → 0 ≤ o ≤ max_count →
  ∃ l whole,
    feed_in tie s f (Some L) (Some o) = Ok l ∧
    feed_in tie s f None None = Ok whole ∧
    length l = (Z.to_nat L `min` (length whole - Z.to_nat o))%nat.
Proof.
  intros HL Ho. do 2 eexists.
  split; [apply feed_in_row_count; simpl; lia|].
  split; [apply feed_in_whole|].
  unfold cap, skip. rewrite decide_False by lia.
  by rewrite length_take, length_drop, !length_ordered_rows_in.
Qed.

Lemma feed_page_length_witness :
  ∃ l whole,
    feed_in Ties.by_limit Scenario.log (user_feed "U1") (Some 5) (Some 1)
      = Ok l ∧
    feed_in Ties.by_limit Scenario.log (user_feed "U1") None None
      = Ok whole ∧
    length l = (Z.to_nat 5 `min` (length whole - Z.to_nat 1))%nat.
Proof.
  apply (feed_page_length Ties.by_limit Scenario.log (user_feed "U1") 5 1);
    unfold max_count; lia.
Defined.

(** On any store, an offset at or past the end of the feed that is still
    a row count gives the empty page, not an error, for every limit that
    is a row count or absent. *)
Theorem feed_offset_past_end tie s f limit o whole :
  row_count limit →
  feed_in tie s f None None = Ok whole →
  Z.of_nat (length whole) ≤ o ≤ max_count →
  feed_in tie s f limit (Some o) = Ok [].
Proof.
  intros Hl Hwhole Ho. rewrite feed_in_whole in Hwhole.
  injection Hwhole as <-. rewrite length_ordered_rows_in in Ho.
  rewrite feed_in_row_count; [|done|simpl; lia].
  unfold skip. rewrite drop_ge by (rewrite length_ordered_rows_in; lia).
  destruct limit as [n|]; simpl; [|done].
  case_decide; [done|]. by rewrite take_nil.
Qed.

Lemma feed_offset_past_end_witness :
  feed_in Ties.by_limit Scenario.log (user_feed "U1") None None
    = Ok [Scenario.A2; Scenario.A1]
  ∧ feed_in Ties.by_limit Scenario.log (user_feed "U1") (Some 10) (Some 2)
    = Ok [].
Proof.
  split; [reflexivity|].
  apply (feed_offset_past_end Ties.by_limit Scenario.log (user_feed "U1")
           (Some 10) 2 [Scenario.A2; Scenario.A1]).
  - unfold row_count, max_count. lia.
  - reflexivity.
  - unfold max_count. simpl. lia.
Defined.

(** ** The primary key *)

Lemma selected_filter_eq s c :
  selected s (Query_filter Session_query_Activity c)
  = filter (λ a, holds (bind s) c (entity a)) (activity_table s).
Proof.
  unfold selected.
  cbn [statement Query_filter Session_query_Activity rows].
  induction (activity_table s) as [|a l IH]; [done|].
  rewrite fmap_cons, !filter_cons.
  destruct (decide (holds (bind s) c (entity a))); [rewrite fmap_cons|];
    by rewrite IH.
Qed.

Lemma selected_in_log s f a :
  a ∈ selected s (feed_query s f) → a ∈ activity_table s.
Proof.
  destruct f as [u|p|g|u|u|]; cbn [feed_query]; intros Ha.
  - by apply elem_of_selected_user in Ha as [? _].
  - by apply elem_of_selected_about in Ha as [? _].
  - by apply elem_of_selected_group in Ha as [? _].
  - by apply elem_of_selected_followed in Ha as [? _].
  - apply elem_of_selected_dashboard in Ha as [Ha | Ha].
    + by apply elem_of_selected_user in Ha as [? _].
    + by apply elem_of_selected_followed in Ha as [? _].
  - by apply elem_of_selected_changed_packages in Ha as [? _].
Qed.

Lemma feed_rows_NoDup s f : NoDup (activity_table s) → NoDup (feed_rows s f).
Proof.
  intros Hlog. unfold feed_rows.
  assert (∀ c, NoDup (ordered_rows s (Query_filter Session_query_Activity c)))
    as Hfilter.
  { intros c. rewrite ordered_rows_Permutation.
    fold (selected s (Query_filter Session_query_Activity c)).
    rewrite selected_filter_eq. by apply NoDup_filter. }
  destruct f as [u|p|g|u|u|]; cbn [feed_query];
    try apply ordered_rows_union_NoDup; try apply Hfilter.
  unfold _group_activity_query.
  destruct (Group_get s g) as [group|]; [|apply Hfilter].
  destruct (package_id <$> packages group); apply Hfilter.
Qed.

(** When the ids of the log are distinct, as the primary key of the
    table makes them, no page of any feed shows two activities with the
    same id. *)
Theorem feed_page_distinct_ids s f limit offset l :
  primary_key s →
  feed s f limit offset = Ok l →
  NoDup (id <$> l).
Proof.
  intros Hkey Hl. unfold primary_key in Hkey.
  pose proof (feed_sublist _ _ _ _ _ Hl) as Hsub.
  apply NoDup_fmap_2_strong.
  - intros x y Hx Hy. apply (NoDup_fmap_inj_on id (activity_table s)); [done|..].
    + apply (selected_in_log s f), elem_of_feed_rows.
      by eapply elem_of_sublist.
    + apply (selected_in_log s f), elem_of_feed_rows.
      by eapply elem_of_sublist.
  - apply (sublist_NoDup _ (feed_rows s f)); [|done].
    apply feed_rows_NoDup. by eapply NoDup_fmap_1.
Qed.

Lemma feed_page_distinct_ids_witness :
  primary_key Overlap.log ∧
  NoDup (id <$> [Overlap.B2; Overlap.B1]).
Proof.
  assert (primary_key Overlap.log) as Hkey.
  { unfold primary_key.
    apply (bool_decide_unpack (NoDup (id <$> activity_table Overlap.log))).
    vm_compute. exact I. }
  split; [exact Hkey|].
  apply (feed_page_distinct_ids Overlap.log (group_feed "G1") None None).
  - exact Hkey.
  - reflexivity.
Defined.

(** ** A user who follows nothing *)

Lemma selected_bind s (qs : list Query) :
  row_activity <$> flat_map (rows s) (statement <$> qs) = qs ≫= selected s.
Proof.
  induction qs as [|q qs IH]; [done|].
  cbn [fmap list_fmap flat_map mbind list_bind].
  rewrite fmap_app. f_equal. exact IH.
Qed.

Lemma selected_union_eq s q qs :
  selected s (Query_union q qs)
  = remove_dups (selected s q ++ (qs ≫= selected s)).
Proof.
  unfold selected at 1. cbn [statement Query_union].
  by rewrite activities_Union, fmap_app, selected_bind.
Qed.

Lemma follows_nothing_selected s u :
  follows_nothing s u →
  selected s (_activites_from_users_followed_by_user_query u) = [] ∧
  selected s (_activities_from_datasets_followed_by_user_query u) = [] ∧
  selected s (_activities_from_groups_followed_by_user_query s u) = [].
Proof.
  intros Hnone. unfold follows_nothing in Hnone.
  assert (∀ table x,
    table `sublist_of` user_following_user_table s
                       ++ user_following_dataset_table s
                       ++ user_following_group_table s →
    ¬ follows table u x) as Hno.
  { intros table x Hsub Hf. apply (Hnone (mkFollowing u x)); [|done].
    by eapply elem_of_sublist. }
  split; [|split]; apply elem_of_nil_inv; intros a Ha.
  - apply elem_of_selected_users_followed in Ha as [_ Hf].
    revert Hf. apply Hno. by apply sublist_inserts_r.
  - apply elem_of_selected_datasets_followed in Ha as [_ Hf].
    revert Hf. apply Hno. by apply sublist_inserts_l, sublist_inserts_r.
  - apply elem_of_selected_groups_followed in Ha as [_ (g & Hf & _)].
    revert Hf. apply Hno. by do 2 apply sublist_inserts_l.
Qed.

Lemma selected_followed_nothing s u :
  follows_nothing s u →
  selected s (_activities_from_everything_followed_by_user_query s u) = [].
Proof.
  intros Hnone.
  destruct (follows_nothing_selected s u Hnone) as (Hu & Hd & Hg).
  unfold _activities_from_everything_followed_by_user_query.
  rewrite !selected_union_eq. cbn [mbind list_bind].
  by rewrite Hu, Hd, Hg.
Qed.

Lemma selected_dashboard_nothing s u :
  follows_nothing s u →
  selected s (_dashboard_activity_query s u)
  = selected s (_user_activity_query u).
Proof.
  intros Hnone.
  destruct (follows_nothing_selected s u Hnone) as (Hu & Hd & Hg).
  unfold _dashboard_activity_query, _user_activity_query.
  rewrite !selected_union_eq. cbn [mbind list_bind].
  by rewrite Hu, Hd, Hg.
Qed.

(** For a user who follows no user, no dataset and no group,
    [activities_from_everything_followed_by_user] returns the empty
    feed, on any store, for every limit and offset that is a row count
    or absent. *)
Theorem followed_feed_of_user_following_nothing tie s u limit offset :
  follows_nothing s u →
  row_count limit → row_count offset →
  feed_in tie s (followed_feed u) limit offset = Ok [].
Proof.
  intros Hnone Hl Ho. rewrite feed_in_row_count by done.
  unfold ordered_rows_in. cbn [feed_query].
  rewrite selected_followed_nothing by done. cbn [sort_ranked foldr].
  destruct offset as [o|], limit as [n|]; simpl;
    repeat case_decide; by rewrite ?drop_nil, ?take_nil.
Qed.

Lemma followed_feed_of_user_following_nothing_witness :
  follows_nothing Scenario.log "U1" ∧
  feed_in Ties.by_limit Scenario.log (followed_feed "U1") (Some 10) (Some 0)
  = Ok [].
Proof.
  assert (follows_nothing Scenario.log "U1") as Hnone.
  { intros f Hf. by apply elem_of_nil in Hf. }
  split; [exact Hnone|].
  apply (followed_feed_of_user_following_nothing Ties.by_limit Scenario.log
           "U1" (Some 10) (Some 0) Hnone); unfold row_count, max_count; lia.
Defined.

(** For a user who follows no user, no dataset and no group, and whose
    public feed has no two activities with the same timestamp, the
    dashboard is the public feed: on any store the two calls agree for
    every limit and offset. *)
Theorem dashboard_of_user_following_nothing tie s u limit offset :
  follows_nothing s u →
  distinct_timestamps s (user_feed u) →
  feed_in tie s (dashboard_feed u) limit offset
  = feed_in tie s (user_feed u) limit offset.
Proof.
  intros Hnone Hdistinct.
  pose proof (selected_dashboard_nothing s u Hnone) as Hsel.
  rewrite !feed_in_distinct; [|done|].
  - rewrite !feed_unfold. apply _activities_at_offset_ext; [done..|].
    unfold ordered_rows. cbn [feed_query].
    fold (selected s (_dashboard_activity_query s u)).
    fold (selected s (_user_activity_query u)).
    by rewrite Hsel.
  - unfold distinct_timestamps in *. cbn [feed_query] in *.
    by rewrite Hsel.
Qed.

Lemma dashboard_of_user_following_nothing_witness :
  follows_nothing Scenario.log "U1" ∧
  feed_in Ties.by_limit Scenario.log (dashboard_feed "U1") (Some 1) None
  = feed_in Ties.by_limit Scenario.log (user_feed "U1") (Some 1) None.
Proof.
  assert (follows_nothing Scenario.log "U1") as Hnone.
  { intros f Hf. by apply elem_of_nil in Hf. }
  split; [exact Hnone|].
  apply (dashboard_of_user_following_nothing Ties.by_limit Scenario.log
           "U1" (Some 1) None Hnone).
  unfold distinct_timestamps.
  apply (bool_decide_unpack
           (NoDup (timestamp <$>
                     selected Scenario.log
                       (feed_query Scenario.log (user_feed "U1"))))).
  vm_compute. exact I.
Defined.

(** ** How the feeds contain one another *)

(** The feed of a group holds the whole feed of each of its datasets. *)
Theorem group_feed_contains_dataset_feed s g group d :
  Group_get s g = Some group →
  d ∈ package_id <$> packages group →
  ∃ of_dataset of_group,
    package_activity_list s d None None = Ok of_dataset ∧
    group_activity_list s g None None = Ok of_group ∧
    ∀ a, a ∈ of_dataset → a ∈ of_group.
Proof.
  intros Hg Hd.
  exists (feed_rows s (package_feed d)), (feed_rows s (group_feed g)).
  split; [apply (whole_feed s (package_feed d))|].
  split; [apply (whole_feed s (group_feed g))|].
  intros a. rewrite !elem_of_feed_rows. cbn [feed_query].
  intros [Ha Ho]%elem_of_selected_about.
  apply elem_of_selected_group. split; [done|].
  exists group. split; [done|]. right. by rewrite Ho.
Qed.

Lemma group_feed_contains_dataset_feed_witness :
  ∃ of_dataset of_group,
    package_activity_list Overlap.log "P1" None None = Ok of_dataset ∧
    group_activity_list Overlap.log "G1" None None = Ok of_group ∧
    ∀ a, a ∈ of_dataset → a ∈ of_group.
Proof.
  apply (group_feed_contains_dataset_feed Overlap.log "G1"
           (mkGroup "G1" [mkPackage "P1"]) "P1").
  - vm_compute. reflexivity.
  - by left.
Defined.

(** The feed of everything a user follows holds the whole feed of each
    group the user follows. *)
Theorem followed_feed_contains_group_feed s u g :
  follows (user_following_group_table s) u g →
  ∃ of_group followed,
    group_activity_list s g None None = Ok of_group ∧
    activities_from_everything_followed_by_user s u None None = Ok followed ∧
    ∀ a, a ∈ of_group → a ∈ followed.
Proof.
  intros Hf.
  exists (feed_rows s (group_feed g)), (feed_rows s (followed_feed u)).
  split; [apply (whole_feed s (group_feed g))|].
  split; [apply (whole_feed s (followed_feed u))|].
  intros a. rewrite !elem_of_feed_rows. cbn [feed_query].
  intros [Ha Hg]%elem_of_selected_group.
  apply elem_of_selected_followed. split; [done|].
  do 2 right. by exists g.
Qed.

Lemma followed_feed_contains_group_feed_witness :
  ∃ of_group followed,
    group_activity_list Overlap.log "G1" None None = Ok of_group ∧
    activities_from_everything_followed_by_user Overlap.log "U1" None None
      = Ok followed ∧
    ∀ a, a ∈ of_group → a ∈ followed.
Proof.
  apply (followed_feed_contains_group_feed Overlap.log "U1" "G1").
  by left.
Defined.

(** The feed of everything a user follows holds the whole feed of each
    dataset the user follows. *)
Theorem followed_feed_contains_dataset_feed s u d :
  follows (user_following_dataset_table s) u d →
  ∃ of_dataset followed,
    package_activity_list s d None None = Ok of_dataset ∧
    activities_from_everything_followed_by_user s u None None = Ok followed ∧
    ∀ a, a ∈ of_dataset → a ∈ followed.
Proof.
  intros Hf.
  exists (feed_rows s (package_feed d)), (feed_rows s (followed_feed u)).
  split; [apply (whole_feed s (package_feed d))|].
  split; [apply (whole_feed s (followed_feed u))|].
  intros a. rewrite !elem_of_feed_rows. cbn [feed_query].
  intros [Ha Ho]%elem_of_selected_about.
  apply elem_of_selected_followed. split; [done|].
  right. left. by rewrite Ho.
Qed.

Lemma followed_feed_contains_dataset_feed_witness :
  ∃ of_dataset followed,
    package_activity_list Overlap.log "P1" None None = Ok of_dataset ∧
    activities_from_everything_followed_by_user Overlap.log "U1" None None
      = Ok followed ∧
    ∀ a, a ∈ of_dataset → a ∈ followed.
Proof.
  apply (followed_feed_contains_dataset_feed Overlap.log "U1" "P1").
  by left.
Defined.
